(** * Base32Code: a shallow embedding of nja/base32 and its properties

    The development follows [Base32Code.h] and [Base32Code.cpp]:

    - [Machine]: the integer types of the C++ source as [Z], with the
      wrap-around of every conversion written out.  The platform is the one
      the code is written for: 8-bit [char], signed; [uint8_t], [uint16_t];
      32-bit two's complement [int]; 64-bit [size_t];
    - [Base32]: the class [Base32Code]: the table [Digits], [Canonical],
      [IsValid], [Digit], [Value], the throwing constructor, [Encode],
      [Decode] and [DecodedSize];
    - [Radix]: big-endian positional notation in a base, the arithmetic the
      bit repacking comes down to;
    - [Bits]: the bit operations of the loops as quotients and remainders;
    - [Repack]: the loop invariants, and what [Encode] and [Decode] compute;
    - [BitSpec]: the encoding as the documentation words it, over bit lists;
    - [Roundtrip]: the two directions composed;
    - [CharSpec]: the character classes of the documentation;
    - the documented properties, one theorem each;
    - [Base32Ops]: the comparison of codes, and further properties of the
      class: validity and construction, [Encode] and [Decode] as functions
      and in blocks, [DecodeSpec] (the decoding over bit lists), and what
      the loops keep. *)

From Stdlib Require Import ZArith Ascii String List Bool Lia.
From Equations Require Import Equations.
Import ListNotations.

Local Open Scope Z_scope.

(** ** Machine integers *)

Module Machine.

(** [CHAR_BIT] of <climits>. *)
Definition CHAR_BIT : Z := 8.

(** Conversion to an unsigned type of [w] bits. *)
Definition wrap_unsigned (w z : Z) : Z := z mod 2 ^ w.

(** Conversion to a signed (two's complement) type of [w] bits. *)
Definition wrap_signed (w z : Z) : Z :=
  (z + 2 ^ (w - 1)) mod 2 ^ w - 2 ^ (w - 1).

Definition to_uint8 : Z -> Z := wrap_unsigned 8.
Definition to_uint16 : Z -> Z := wrap_unsigned 16.
Definition to_size_t : Z -> Z := wrap_unsigned 64.
Definition to_schar : Z -> Z := wrap_signed 8.
Definition to_int : Z -> Z := wrap_signed 32.

Definition INT_MAX : Z := 2 ^ 31 - 1.

(** The range of a [char] seen as a number. *)
Definition is_char (z : Z) : Prop := -128 <= z <= 127.

(** The range of a [uint8_t]. *)
Definition is_byte (z : Z) : Prop := 0 <= z < 256.

(** Integer promotion of a [char]. *)
Definition int_of_char (c : ascii) : Z := to_schar (Z.of_N (N_of_ascii c)).

(** [static_cast<char>] of an [int]. *)
Definition char_of_int (z : Z) : ascii := ascii_of_N (Z.to_N (to_uint8 z)).

(** [std::toupper] in the "C" locale. *)
Definition toupper (ch : Z) : Z :=
  if (97 <=? ch) && (ch <=? 122) then ch - 32 else ch.

(** [std::div] on [int]: quotient truncated towards zero, and remainder. *)
Definition div (x y : Z) : Z * Z := (Z.quot x y, Z.rem x y).

(** [std::abs] on [int]. *)
Definition abs (x : Z) : Z := Z.abs x.

End Machine.

(** ** The class Base32Code *)

Module Base32.
Import Machine.

(** [std::string] is the sequence of its characters. *)
Definition std_string : Type := list ascii.

Definition str (s : string) : std_string := list_ascii_of_string s.

Record Base32Code : Type := { str_ : std_string }.

(** What the constructor throws. *)
Inductive exception : Type :=
| invalid_argument (what : string).

Definition InvalidDigit : ascii := "000"%char.
Definition InvalidValue : Z := -1.
Definition DigitBits : Z := 5.
Definition CharBits : Z := CHAR_BIT.
Definition Mask : Z := 0x001f.

(** The canonical digits in ascending order of value. *)
Definition Digits : list ascii :=
  [ "0"; "1"; "2"; "3"; "4"; "5"; "6"; "7";
    "8"; "9"; "A"; "B"; "C"; "D"; "E"; "F";
    "G"; "H"; "J"; "K"; "M"; "N"; "P"; "Q";
    "R"; "S"; "T"; "V"; "W"; "X"; "Y"; "Z" ]%char.

(** [sizeof(Digits)]. *)
Definition sizeof_Digits : Z := Z.of_nat (length Digits).

(** The canonical form of [digit], or [InvalidDigit]: the switch of the
    source, case by case. *)
Definition Canonical (digit : ascii) : ascii :=
  match digit with
  | "0" | "o" | "O" => "0"
  | "1" | "i" | "I" | "l" | "L" => "1"
  | "2" | "3" | "4" | "5" | "6" | "7" | "8" | "9"
  | "A" | "B" | "C" | "D" | "E" | "F" | "G" | "H"
  | "J" | "K"
  | "M" | "N"
  | "P" | "Q" | "R" | "S" | "T"
  | "V" | "W" | "X" | "Y" | "Z" => digit
  | "a" | "b" | "c" | "d" | "e" | "f" | "g" | "h"
  | "j" | "k"
  | "m" | "n"
  | "p" | "q" | "r" | "s" | "t"
  | "v" | "w" | "x" | "y" | "z" => char_of_int (toupper (int_of_char digit))
  | _ => InvalidDigit
  end%char.

(** [IsValid(const char)]. *)
Definition IsValid (c : ascii) : bool :=
  negb (Ascii.eqb (Canonical c) InvalidDigit).

(** [IsValid(const std::string&)]: [std::all_of]. *)
Definition IsValid_string (s : std_string) : bool := forallb IsValid s.

(** [Digit(const char value)]; [value] is the number the [char] holds.  In
    [sizeof(Digits) <= value] the [char] is converted to [size_t]. *)
Definition Digit (value : Z) : ascii :=
  if (value <? 0) || (sizeof_Digits <=? to_size_t value)
  then InvalidDigit
  else nth (Z.to_nat value) Digits InvalidDigit.

(** [std::find(first, last, x) - first]: the position of the first
    occurrence, or the length of the range when there is none. *)
Fixpoint find_index (x : ascii) (l : list ascii) : Z :=
  match l with
  | [] => 0
  | y :: l' => if Ascii.eqb y x then 0 else 1 + find_index x l'
  end.

(** The argument of the [assert] in [Value]. *)
Definition Value_assertion (digit : ascii) : bool :=
  let canonical := Canonical digit in
  if Ascii.eqb InvalidDigit canonical then true
  else
    let value := find_index canonical Digits in
    (0 <=? value) && (value <? 32).

(** [Value(const char digit)], a [signed char]. *)
Definition Value (digit : ascii) : Z :=
  let canonical := Canonical digit in
  if Ascii.eqb InvalidDigit canonical then InvalidValue
  else
    let value := find_index canonical Digits in
    to_schar value.

(** The loop of the constructor: every character is replaced by its
    canonical form, and the first invalid one throws. *)
Fixpoint canonicalize (s : std_string) : exception + std_string :=
  match s with
  | [] => inr []
  | c :: s' =>
      let c := Canonical c in
      if Ascii.eqb c InvalidDigit
      then inl (invalid_argument "Invalid Base32 digit")
      else match canonicalize s' with
           | inl e => inl e
           | inr t => inr (c :: t)
           end
  end.

(** [Base32Code::Base32Code(std::string)]. *)
Definition make (s : std_string) : exception + Base32Code :=
  match canonicalize s with
  | inl e => inl e
  | inr t => inr {| str_ := t |}
  end.

Definition Str (c : Base32Code) : std_string := str_ c.
Definition Size (c : Base32Code) : Z := Z.of_nat (length (str_ c)).

(** *** Encode

    [tmp] is a [uint16_t]: every assignment to it wraps to 16 bits.
    [shift] is an [int]; after every iteration it lies between -5 and 0 in
    [Encode] ([Encode_loop_shift]) and between 0 and 7 in [Decode]
    ([Decode_loop_shift]), so it never leaves the range -5 .. 12 and the
    arithmetic on it is exact. *)

(** The argument of [Digit] in the inner loop of [Encode]: an [int],
    converted to the [char] that [Digit] takes. *)
Definition digit_arg (tmp shift : Z) : Z :=
  to_schar (Z.shiftr (Z.land tmp (Z.shiftl Mask shift)) shift).

(** The state of the loops: [tmp], [shift] and what was written so far. *)
Definition state (A : Type) : Type := (Z * Z * list A)%type.

(** The statements of [Encode] that build [str] are written once for any
    function [emit] applied to a five-bit group before [push_back]; the
    source applies [Digit].  Taking the identity instead lists the very
    arguments [Digit] receives. *)
Section Emit.

Context {A : Type} (emit : Z -> A).

(** The inner loop:
    [do { str.push_back(Digit(...)); shift -= DigitBits(); } while (shift > 0);]
    It returns [shift] and [str]; [tmp] is only read. *)
Equations push_digits (tmp shift : Z) (s : list A) : Z * list A
  by wf (Z.to_nat shift) lt :=
  push_digits tmp shift s with Z_lt_dec 0 (shift - DigitBits) := {
    | left _ =>
        push_digits tmp (shift - DigitBits)
          (s ++ [emit (digit_arg tmp shift)])
    | right _ =>
        (shift - DigitBits, s ++ [emit (digit_arg tmp shift)]) }.
Next Obligation. unfold DigitBits in *. lia. Qed.

(** One iteration of the outer loop, on the element [x]. *)
Definition Encode_step (st : state A) (x : Z) : state A :=
  let '(tmp, shift, s) := st in
  let tmp := to_uint16 (Z.shiftl tmp CharBits) in
  let shift := shift + CharBits in
  let tmp := to_uint16 (Z.land tmp 0xff00) in
  let tmp := to_uint16 (Z.lor tmp (Z.land 0x00ff x)) in
  let '(shift, s) := push_digits tmp shift s in
  (tmp, shift, s).

Definition Encode_loop (bytes : list Z) : state A :=
  fold_left Encode_step bytes (0, - DigitBits, []).

(** From [std::string str;] to the last [push_back]. *)
Definition Encode_str (bytes : list Z) : list A :=
  let '(tmp, shift, s) := Encode_loop bytes in
  let tmp := to_uint16 (Z.shiftl tmp (abs shift)) in
  s ++ [emit (to_schar (Z.land tmp Mask))].

End Emit.

(** [Encode(first, last)] on the sequence [first .. last). *)
Definition Encode (bytes : list Z) : exception + Base32Code :=
  match bytes with
  | [] => make (str EmptyString)
  | _ => make (Encode_str Digit bytes)
  end.

(** The values [Encode] passes to [Digit], in order. *)
Definition Digit_args (bytes : list Z) : list Z :=
  match bytes with
  | [] => []
  | _ => Encode_str (fun value => value) bytes
  end.

(** *** Decode *)

(** One iteration of the loop of [Decode], on the digit [c]; the output
    iterator writes [uint8_t]. *)
Definition Decode_step (st : state Z) (c : ascii) : state Z :=
  let '(tmp, shift, out) := st in
  let tmp := to_uint16 (Z.shiftl tmp DigitBits) in
  let shift := shift + DigitBits in
  let tmp := to_uint16 (Z.land tmp (Z.lnot Mask)) in
  let tmp := to_uint16 (Z.lor tmp (Z.land Mask (Value c))) in
  if CharBits <=? shift
  then
    let shift := shift - CharBits in
    (tmp, shift, out ++ [to_uint8 (Z.shiftr tmp shift)])
  else (tmp, shift, out).

Definition Decode_loop (c : Base32Code) : state Z :=
  fold_left Decode_step (str_ c) (0, 0, []).

(** [Decode(out)]: the bytes written through [out], in order. *)
Definition Decode (c : Base32Code) : list Z :=
  let '(tmp, shift, out) := Decode_loop c in
  if 0 <? shift
  then
    let tmp := to_uint16 (Z.shiftl tmp (CharBits - shift)) in
    out ++ [to_uint8 tmp]
  else out.

(** [DecodedSize(size_t digits)]: the product and the sum are computed in
    [int], the result is converted back to [size_t]. *)
Definition DecodedSize (digits : Z) : Z :=
  let dv := div (to_int (to_int digits * DigitBits)) CharBits in
  let size := to_int (fst dv + (if snd dv =? 0 then 0 else 1)) in
  to_size_t size.

(** The class invariant: every character of [str_] is a canonical digit. *)
Definition wf (c : Base32Code) : Prop :=
  Forall (fun ch => In ch Digits) (str_ c).

End Base32.

(** ** Big-endian positional notation

    Both directions of the codec write one number in another base: [Encode]
    reads the bytes as a number in base 256 and writes it in base 32,
    [Decode] reads base 32 and writes base 256. *)

Module Radix.

Section Base.

Variable B : Z.
Hypothesis B_gt_1 : 1 < B.

(** The number a list of digits denotes, most significant digit first. *)
Definition value_be (ds : list Z) : Z :=
  fold_left (fun acc d => acc * B + d) ds 0.

(** The [k] least significant digits of [W], most significant first. *)
Fixpoint digits_be (k : nat) (W : Z) : list Z :=
  match k with
  | O => []
  | S k' => digits_be k' (W / B) ++ [W mod B]
  end.

Definition in_base (d : Z) : Prop := 0 <= d < B.

Lemma value_be_snoc ds d : value_be (ds ++ [d]) = value_be ds * B + d.
Proof. unfold value_be. now rewrite fold_left_app. Qed.

Lemma value_be_nil : value_be [] = 0.
Proof. reflexivity. Qed.

Lemma value_be_app xs ys :
  value_be (xs ++ ys) = value_be xs * B ^ Z.of_nat (length ys) + value_be ys.
Proof.
  induction ys as [|y ys IH] using rev_ind.
  - rewrite app_nil_r, value_be_nil. simpl. lia.
  - rewrite app_assoc, !value_be_snoc, IH, length_app. simpl length.
    rewrite Nat2Z.inj_add, Z.pow_add_r by lia. simpl Z.of_nat. lia.
Qed.

Lemma value_be_cons x ys :
  value_be (x :: ys) = x * B ^ Z.of_nat (length ys) + value_be ys.
Proof.
  change (x :: ys) with ([x] ++ ys). rewrite value_be_app.
  unfold value_be at 1. simpl. reflexivity.
Qed.

Lemma value_be_bound ds :
  Forall in_base ds -> 0 <= value_be ds < B ^ Z.of_nat (length ds).
Proof.
  induction ds as [|d ds IH] using rev_ind; intros H.
  - rewrite value_be_nil. simpl. lia.
  - apply Forall_app in H as [H1 H2]. inversion H2 as [|? ? Hd _]; subst.
    specialize (IH H1). unfold in_base in Hd.
    rewrite value_be_snoc, length_app. simpl length.
    rewrite Nat2Z.inj_add, Z.pow_add_r by lia. simpl Z.of_nat.
    rewrite Z.pow_1_r. nia.
Qed.

Lemma digits_be_length k W : length (digits_be k W) = k.
Proof.
  revert W. induction k as [|k IH]; intros W; simpl; [reflexivity|].
  rewrite length_app, IH. simpl. lia.
Qed.

Lemma digits_be_in_base k W : Forall in_base (digits_be k W).
Proof.
  revert W. induction k as [|k IH]; intros W; simpl; [constructor|].
  apply Forall_app. split; [apply IH|].
  constructor; [|constructor]. unfold in_base. apply Z.mod_pos_bound. lia.
Qed.

(** Writing the digits of the number a digit list denotes gives the list
    back. *)
Lemma digits_be_value ds :
  Forall in_base ds -> digits_be (length ds) (value_be ds) = ds.
Proof.
  induction ds as [|d ds IH] using rev_ind; intros H; [reflexivity|].
  apply Forall_app in H as [H1 H2]. inversion H2 as [|? ? Hd _]; subst.
  unfold in_base in Hd.
  rewrite length_app, Nat.add_comm. simpl. rewrite value_be_snoc.
  rewrite Z.div_add_l, Z.div_small, Z.add_0_r by lia.
  rewrite IH by assumption. f_equal. f_equal.
  rewrite Z.add_comm, Z.mod_add by lia. apply Z.mod_small. lia.
Qed.

(** The digits written denote the number, when it fits. *)
Lemma value_be_digits k W :
  0 <= W < B ^ Z.of_nat k -> value_be (digits_be k W) = W.
Proof.
  revert W. induction k as [|k IH]; intros W HW.
  - simpl in *. rewrite value_be_nil. lia.
  - cbn [digits_be]. rewrite value_be_snoc.
    rewrite Nat2Z.inj_succ, Z.pow_succ_r in HW by lia.
    rewrite IH.
    + pose proof (Z.div_mod W B). lia.
    + split; [apply Z.div_pos; lia|].
      apply Z.div_lt_upper_bound; lia.
Qed.

(** Multiplying by a power of the base appends zero digits. *)
Lemma digits_be_shift k j W :
  digits_be (k + j) (W * B ^ Z.of_nat j) = digits_be k W ++ repeat 0 j.
Proof.
  induction j as [|j IH].
  - rewrite Nat.add_0_r, app_nil_r. simpl. now rewrite Z.mul_1_r.
  - rewrite Nat.add_succ_r. cbn [digits_be].
    rewrite Nat2Z.inj_succ, Z.pow_succ_r by lia.
    replace (W * (B * B ^ Z.of_nat j)) with (W * B ^ Z.of_nat j * B) by lia.
    rewrite Z.div_mul, Z.mod_mul, IH by lia.
    rewrite <- app_assoc. f_equal.
    change [0] with (repeat 0 1). rewrite <- repeat_app.
    now rewrite Nat.add_1_r.
Qed.

(** The most significant digit comes off the front. *)
Lemma digits_be_cons k a w :
  0 <= a < B -> 0 <= w < B ^ Z.of_nat k ->
  digits_be (S k) (a * B ^ Z.of_nat k + w) = a :: digits_be k w.
Proof.
  revert w. induction k as [|k IH]; intros w Ha Hw.
  - simpl in *. replace w with 0 by lia.
    rewrite Z.mul_1_r, Z.add_0_r. now rewrite Z.mod_small by lia.
  - rewrite Nat2Z.inj_succ, Z.pow_succ_r in Hw by lia.
    rewrite Nat2Z.inj_succ, Z.pow_succ_r by lia.
    change (digits_be (S (S k)) ?x) with
      (digits_be (S k) (x / B) ++ [x mod B]).
    replace (a * (B * B ^ Z.of_nat k) + w)
      with (w + (a * B ^ Z.of_nat k) * B) by lia.
    rewrite Z.div_add, Z.mod_add by lia.
    rewrite (Z.add_comm (w / B)), IH.
    + reflexivity.
    + assumption.
    + split; [apply Z.div_pos; lia|].
      apply Z.div_lt_upper_bound; lia.
Qed.

End Base.

End Radix.

(** ** The bit operations of the loops as quotients and remainders *)

Module Bits.
Import Machine Base32.

(** Goals with quotients and remainders by numerals. *)
Ltac divmod := Z.to_euclidean_division_equations; lia.

Lemma to_uint16_mod z : to_uint16 z = z mod 65536.
Proof. reflexivity. Qed.

Lemma to_uint8_mod z : to_uint8 z = z mod 256.
Proof. reflexivity. Qed.

Lemma to_schar_id z : is_char z -> to_schar z = z.
Proof.
  unfold is_char, to_schar, wrap_signed. intros H.
  change (2 ^ (8 - 1)) with 128. change (2 ^ 8) with 256.
  rewrite Z.mod_small; lia.
Qed.

Lemma to_int_id z : - 2 ^ 31 <= z <= INT_MAX -> to_int z = z.
Proof.
  unfold INT_MAX, to_int, wrap_signed. intros H.
  change (2 ^ (32 - 1)) with (2 ^ 31).
  rewrite Z.mod_small; [lia|]. change (2 ^ 32) with (2 * 2 ^ 31). lia.
Qed.

Lemma land_ff x : Z.land 0x00ff x = x mod 256.
Proof. rewrite Z.land_comm. exact (Z.land_ones x 8 ltac:(lia)). Qed.

Lemma land_Mask x : Z.land x Mask = x mod 32.
Proof. exact (Z.land_ones x 5 ltac:(lia)). Qed.

Lemma Mask_land x : Z.land Mask x = x mod 32.
Proof. rewrite Z.land_comm. apply land_Mask. Qed.

(** A value shifted left by [n] shares no bit with one below [2 ^ n]. *)
Lemma land_shiftl_low q r n :
  0 <= n -> 0 <= r < 2 ^ n -> Z.land (Z.shiftl q n) r = 0.
Proof.
  intros Hn Hr. apply Z.bits_inj'. intros i Hi.
  rewrite Z.land_spec, Z.bits_0.
  destruct (Z_lt_dec i n) as [Hlt|Hge].
  - now rewrite Z.shiftl_spec_low.
  - rewrite <- (Z.mod_small r (2 ^ n)) by lia.
    rewrite Z.mod_pow2_bits_high by lia. apply andb_false_r.
Qed.

Lemma lor_shiftl_low q r n :
  0 <= n -> 0 <= r < 2 ^ n -> Z.lor (Z.shiftl q n) r = q * 2 ^ n + r.
Proof.
  intros Hn Hr. pose proof (Z.add_lor_land (Z.shiftl q n) r) as H.
  rewrite land_shiftl_low in H by assumption.
  rewrite <- (Z.shiftl_mul_pow2 q n) by assumption. lia.
Qed.

(** [tmp <<= 8; tmp &= 0xff00; tmp |= 0x00ff & x] *)
Lemma Encode_tmp tmp x :
  0 <= tmp ->
  to_uint16 (Z.lor (to_uint16 (Z.land (to_uint16 (Z.shiftl tmp CharBits))
                                 0xff00))
               (Z.land 0x00ff x))
  = (tmp mod 256) * 256 + x mod 256.
Proof.
  intros Ht. rewrite land_ff, !to_uint16_mod.
  unfold CharBits, CHAR_BIT. rewrite Z.shiftl_mul_pow2 by lia.
  change (2 ^ 8) with 256.
  replace ((tmp * 256) mod 65536) with (Z.shiftl (tmp mod 256) 8)
    by (rewrite Z.shiftl_mul_pow2 by lia; change (2 ^ 8) with 256; divmod).
  change 0xff00 with (Z.shiftl (Z.ones 8) 8).
  rewrite <- Z.shiftl_land, Z.land_ones by lia.
  change (2 ^ 8) with 256. rewrite Z.mod_mod by lia.
  assert (Hq : 0 <= tmp mod 256 < 256) by (apply Z.mod_pos_bound; lia).
  assert (Hx : 0 <= x mod 256 < 256) by (apply Z.mod_pos_bound; lia).
  rewrite (Z.mod_small (Z.shiftl _ _))
    by (rewrite Z.shiftl_mul_pow2 by lia; change (2 ^ 8) with 256; lia).
  rewrite lor_shiftl_low by (change (2 ^ 8) with 256; lia).
  change (2 ^ 8) with 256. apply Z.mod_small. lia.
Qed.

(** [tmp <<= 5; tmp &= ~Mask(); tmp |= Mask() & v] *)
Lemma Decode_tmp tmp v :
  0 <= tmp ->
  to_uint16 (Z.lor (to_uint16 (Z.land (to_uint16 (Z.shiftl tmp DigitBits))
                                 (Z.lnot Mask)))
               (Z.land Mask v))
  = (tmp * 32 + v mod 32) mod 65536.
Proof.
  intros Ht. rewrite Mask_land, !to_uint16_mod.
  unfold DigitBits. rewrite Z.shiftl_mul_pow2 by lia.
  change (2 ^ 5) with 32.
  rewrite <- Z.ldiff_land. change Mask with (Z.ones 5).
  rewrite Z.ldiff_ones_r by lia.
  rewrite Z.shiftr_div_pow2, Z.shiftl_mul_pow2 by lia.
  change (2 ^ 5) with 32.
  assert (Hv : 0 <= v mod 32 < 32) by (apply Z.mod_pos_bound; lia).
  replace ((tmp * 32) mod 65536 / 32 * 32) with ((tmp mod 2048) * 32)
    by divmod.
  assert (Hq : 0 <= tmp mod 2048 < 2048) by (apply Z.mod_pos_bound; lia).
  rewrite (Z.mod_small (_ * 32)) by lia.
  rewrite <- Z.shiftl_mul_pow2 with (n := 5) by lia.
  rewrite lor_shiftl_low by (change (2 ^ 5) with 32; lia).
  change (2 ^ 5) with 32. divmod.
Qed.

(** The five bits of [tmp] at [shift]. *)
Lemma digit_arg_eq tmp shift :
  0 <= tmp -> 0 <= shift ->
  digit_arg tmp shift = (tmp / 2 ^ shift) mod 32.
Proof.
  intros Ht Hs. unfold digit_arg.
  rewrite Z.shiftr_land, Z.shiftr_shiftl_l, Z.sub_diag, Z.shiftl_0_r by lia.
  rewrite land_Mask, Z.shiftr_div_pow2 by lia.
  apply to_schar_id. unfold is_char.
  pose proof (Z.mod_pos_bound (tmp / 2 ^ shift) 32). lia.
Qed.

End Bits.

(** ** What the loops compute *)

Module Repack.
Import Machine Base32 Radix Bits.

(** The lowest 8 bits of an input element. *)
Definition low8 (x : Z) : Z := x mod 256.

(** The bytes read as one number in base 256. *)
Definition bytes_value (bytes : list Z) : Z := value_be 256 (map low8 bytes).

(** The value a digit contributes in [Decode]: [Mask() & Value(c)]. *)
Definition digit_bits (c : ascii) : Z := Z.land Mask (Value c).

(** The digits read as one number in base 32. *)
Definition digits_value (s : std_string) : Z :=
  value_be 32 (map digit_bits s).

(** Ceiling of a quotient of naturals. *)
Definition ceil_div (a b : Z) : Z := a / b + (if a mod b =? 0 then 0 else 1).

(** The number of digits [Encode] writes for [l] bytes. *)
Definition encoded_length (l : nat) : nat :=
  Z.to_nat (ceil_div (8 * Z.of_nat l) 5).

(** The number of bytes [Decode] writes for [n] digits. *)
Definition decoded_length (n : nat) : nat :=
  Z.to_nat (ceil_div (5 * Z.of_nat n) 8).

Lemma ceil_div_5 k p l :
  5 * Z.of_nat k + p = 8 * Z.of_nat l -> 1 <= p <= 5 ->
  encoded_length l = S k.
Proof.
  intros Hk Hp. unfold encoded_length, ceil_div.
  destruct (Z.eqb_spec ((8 * Z.of_nat l) mod 5) 0);
    apply Nat2Z.inj; rewrite Z2Nat.id; divmod.
Qed.

Section Emit.

Context {A : Type} (emit : Z -> A).

Lemma push_digits_unfold tmp shift (s : list A) :
  push_digits emit tmp shift s =
    if 0 <? shift - DigitBits
    then push_digits emit tmp (shift - DigitBits)
           (s ++ [emit (digit_arg tmp shift)])
    else (shift - DigitBits, s ++ [emit (digit_arg tmp shift)]).
Proof.
  rewrite push_digits_equation_1.
  destruct (Z_lt_dec 0 (shift - DigitBits)) as [H|H]; simpl.
  - apply Z.ltb_lt in H. now rewrite H.
  - apply Z.ltb_nlt in H. now rewrite H.
Qed.

Lemma low8_range x : 0 <= low8 x < 256.
Proof. apply Z.mod_pos_bound. lia. Qed.

Lemma bytes_value_snoc bytes x :
  bytes_value (bytes ++ [x]) = bytes_value bytes * 256 + low8 x.
Proof. unfold bytes_value. rewrite map_app. cbn [map]. apply value_be_snoc. Qed.

Lemma bytes_value_nonneg bytes : 0 <= bytes_value bytes.
Proof.
  unfold bytes_value.
  apply (value_be_bound 256 ltac:(lia)).
  apply Forall_forall. intros d Hd. apply in_map_iff in Hd as [x [<- _]].
  apply low8_range.
Qed.

Lemma push_digits_one tmp shift (s : list A) :
  0 <= tmp -> 0 <= shift <= 5 ->
  push_digits emit tmp shift s
  = (shift - 5, s ++ [emit ((tmp / 2 ^ shift) mod 32)]).
Proof.
  intros Ht Hs. rewrite push_digits_unfold. unfold DigitBits.
  destruct (Z.ltb_spec 0 (shift - 5)); [lia|].
  now rewrite digit_arg_eq by lia.
Qed.

Lemma push_digits_two tmp shift (s : list A) :
  0 <= tmp -> 5 < shift <= 10 ->
  push_digits emit tmp shift s
  = (shift - 10,
     (s ++ [emit ((tmp / 2 ^ shift) mod 32)])
       ++ [emit ((tmp / 2 ^ (shift - 5)) mod 32)]).
Proof.
  intros Ht Hs. rewrite push_digits_unfold. unfold DigitBits.
  destruct (Z.ltb_spec 0 (shift - 5)); [|lia].
  rewrite push_digits_one, digit_arg_eq by lia.
  f_equal. lia.
Qed.

Lemma div_pow2_pow2 V a b :
  0 <= a -> 0 <= b -> V / 2 ^ a / 2 ^ b = V / 2 ^ (a + b).
Proof.
  intros Ha Hb. rewrite Z.pow_add_r by assumption.
  pose proof (Z.pow_pos_nonneg 2 a). pose proof (Z.pow_pos_nonneg 2 b).
  apply Z.div_div; lia.
Qed.

(** Within the 16 bits of [tmp], a field of [w] bits at [s] is the same
    field of the whole number. *)
Lemma field_of_tmp V s w :
  0 <= s -> 0 <= w -> s + w <= 16 ->
  (V mod 65536 / 2 ^ s) mod 2 ^ w = (V / 2 ^ s) mod 2 ^ w.
Proof.
  intros Hs Hw Hsw.
  rewrite <- !Z.shiftr_div_pow2, <- !Z.land_ones by assumption.
  change 65536 with (2 ^ 16). rewrite <- (Z.land_ones V 16) by lia.
  apply Z.bits_inj'. intros i Hi.
  rewrite !Z.land_spec, !Z.shiftr_spec, Z.land_spec by assumption.
  destruct (Z_lt_dec i w) as [Hlt|Hge].
  - rewrite (Z.ones_spec_low 16) by lia. now rewrite andb_true_r.
  - rewrite (Z.ones_spec_high w) by lia. now rewrite !andb_false_r.
Qed.

(** The state of [Encode] after the bytes read so far: [tmp] holds the
    last two bytes, [p = shift + 5] bits of the last byte are still to be
    written, and the digits written are the bits before them. *)
Definition Encode_inv (bytes : list Z) (st : state A) : Prop :=
  exists (k : nat) (p : Z),
    st = (bytes_value bytes mod 65536, p - 5,
          map emit (digits_be 32 k (bytes_value bytes / 2 ^ p)))
    /\ 5 * Z.of_nat k + p = 8 * Z.of_nat (length bytes)
    /\ 0 <= p <= 5
    /\ (bytes <> [] -> 1 <= p).

Lemma Encode_loop_snoc bytes x :
  Encode_loop emit (bytes ++ [x])
  = Encode_step emit (Encode_loop emit bytes) x.
Proof. unfold Encode_loop. now rewrite fold_left_app. Qed.

Lemma Encode_loop_inv bytes : Encode_inv bytes (Encode_loop emit bytes).
Proof.
  induction bytes as [|x bytes IH] using rev_ind.
  - exists 0%nat, 0. repeat split; try reflexivity; try lia. congruence.
  - destruct IH as (k & p & Hst & Hk & Hp & _).
    unfold Encode_inv.
    rewrite Encode_loop_snoc, Hst. unfold Encode_step.
    pose proof (bytes_value_nonneg bytes) as HV.
    pose proof (low8_range x) as Hx.
    rewrite Encode_tmp by (apply Z.mod_pos_bound; lia).
    rewrite length_app, bytes_value_snoc. simpl length.
    fold (low8 x). set (V := bytes_value bytes) in *.
    replace (V mod 65536 mod 256 * 256 + low8 x)
      with ((V * 256 + low8 x) mod 65536) by divmod.
    set (V' := V * 256 + low8 x).
    assert (HV' : 0 <= V') by (unfold V'; lia).
    assert (Hd : V' / 2 ^ 8 = V) by (unfold V'; change (2 ^ 8) with 256; divmod).
    assert (Hm : 0 <= V' mod 65536) by (apply Z.mod_pos_bound; lia).
    unfold CharBits, CHAR_BIT.
    destruct (Z_le_dec p 2) as [Hlow|Hhigh].
    + rewrite push_digits_one by lia.
      exists (S k), (p + 3). repeat split; try lia.
      f_equal; [f_equal; lia|].
      cbn [digits_be]. rewrite map_app. cbn [map].
      change 32 with (2 ^ 5).
      rewrite field_of_tmp, div_pow2_pow2 by lia.
      replace (p - 5 + 8) with (p + 3) by lia.
      replace (p + 3 + 5) with (8 + p) by lia.
      now rewrite <- (div_pow2_pow2 V' 8 p), Hd by lia.
    + rewrite push_digits_two by lia.
      exists (S (S k)), (p - 2). repeat split; try lia.
      f_equal; [f_equal; lia|].
      cbn [digits_be]. rewrite !map_app. cbn [map].
      change 32 with (2 ^ 5).
      rewrite !field_of_tmp, !div_pow2_pow2 by lia.
      replace (p - 5 + 8 - 5) with (p - 2) by lia.
      replace (p - 5 + 8) with (p - 2 + 5) by lia.
      replace (p - 2 + (5 + 5)) with (8 + p) by lia.
      now rewrite <- (div_pow2_pow2 V' 8 p), Hd by lia.
Qed.

Lemma Encode_loop_shift bytes :
  let '(_, shift, _) := Encode_loop emit bytes in -5 <= shift <= 0.
Proof.
  destruct (Encode_loop_inv bytes) as (k & p & -> & _ & Hp & _). lia.
Qed.

(** What [Encode] appends, for any [emit]: the bytes, read as one number
    and scaled to a whole number of digits, in base 32. *)
Lemma Encode_str_radix bytes :
  bytes <> [] ->
  let l := length bytes in
  let K := encoded_length l in
  Encode_str emit bytes
  = map emit
      (digits_be 32 K
         (bytes_value bytes * 2 ^ (5 * Z.of_nat K - 8 * Z.of_nat l))).
Proof.
  intros Hne l K. unfold Encode_str.
  destruct (Encode_loop_inv bytes) as (k & p & Hst & Hk & Hp & Hp1).
  specialize (Hp1 Hne). rewrite Hst.
  pose proof (bytes_value_nonneg bytes) as HV.
  set (V := bytes_value bytes) in *. fold l in Hk.
  assert (HK : K = S k) by (apply (ceil_div_5 k p l); lia).
  rewrite HK.
  replace (5 * Z.of_nat (S k) - 8 * Z.of_nat l) with (5 - p) by lia.
  unfold abs. replace (Z.abs (p - 5)) with (5 - p) by lia.
  rewrite land_Mask, to_uint16_mod, Z.shiftl_mul_pow2 by lia.
  assert (Hlast : to_schar ((V mod 65536 * 2 ^ (5 - p)) mod 65536 mod 32)
                  = (V * 2 ^ (5 - p)) mod 32
                  /\ V * 2 ^ (5 - p) / 32 = V / 2 ^ p).
  { assert (Hc : p = 1 \/ p = 2 \/ p = 3 \/ p = 4 \/ p = 5) by lia.
    rewrite to_schar_id
      by (unfold is_char;
          pose proof (Z.mod_pos_bound
                        ((V mod 65536 * 2 ^ (5 - p)) mod 65536) 32); lia).
    destruct Hc as [->|[->|[->|[->| ->]]]]; cbn; split; divmod. }
  destruct Hlast as [Hl1 Hl2]. rewrite Hl1.
  cbn [digits_be]. rewrite map_app, Hl2. reflexivity.
Qed.

End Emit.

(** Every value below 32 has a digit, and the digit is canonical. *)
Lemma Digit_canonical d :
  0 <= d < 32 ->
  Canonical (Digit d) = Digit d /\ Ascii.eqb (Digit d) InvalidDigit = false.
Proof.
  intros Hd. rewrite <- (Z2Nat.id d) by lia.
  assert (Hn : (Z.to_nat d < 32)%nat) by lia.
  revert Hn. generalize (Z.to_nat d). intros n Hn.
  do 32 (destruct n as [|n]; [split; reflexivity|]). lia.
Qed.

(** The constructor accepts a string of digits as it is. *)
Lemma canonicalize_digits ds :
  Forall (in_base 32) ds -> canonicalize (map Digit ds) = inr (map Digit ds).
Proof.
  induction 1 as [|d ds Hd _ IH]; [reflexivity|].
  cbn [map canonicalize].
  destruct (Digit_canonical d Hd) as [Hc Hv].
  now rewrite Hc, Hv, IH.
Qed.

Lemma make_digits ds :
  Forall (in_base 32) ds -> make (map Digit ds) = inr {| str_ := map Digit ds |}.
Proof. intros H. unfold make. now rewrite canonicalize_digits. Qed.

(** The digit values [Encode] computes for [bytes]: the bytes, read as one
    number and scaled to a whole number of digits, in base 32. *)
Definition encoded_values (bytes : list Z) : list Z :=
  let l := length bytes in
  let K := encoded_length l in
  digits_be 32 K (bytes_value bytes * 2 ^ (5 * Z.of_nat K - 8 * Z.of_nat l)).

Lemma encoded_values_in_base bytes : Forall (in_base 32) (encoded_values bytes).
Proof. apply digits_be_in_base. lia. Qed.

Lemma encoded_values_length bytes :
  length (encoded_values bytes) = encoded_length (length bytes).
Proof. apply digits_be_length. Qed.

Lemma Digit_args_radix bytes : Digit_args bytes = encoded_values bytes.
Proof.
  destruct bytes as [|x bytes]; [reflexivity|].
  unfold Digit_args. rewrite Encode_str_radix by discriminate.
  apply map_id.
Qed.

(** [Encode] returns the code whose digits are those values. *)
Theorem Encode_radix bytes :
  Encode bytes = inr {| str_ := map Digit (encoded_values bytes) |}.
Proof.
  destruct bytes as [|x bytes]; [reflexivity|].
  unfold Encode. rewrite Encode_str_radix by discriminate.
  apply make_digits, encoded_values_in_base.
Qed.

Lemma digit_bits_range c : 0 <= digit_bits c < 32.
Proof. unfold digit_bits. rewrite Mask_land. apply Z.mod_pos_bound. lia. Qed.

Lemma digits_value_snoc s c :
  digits_value (s ++ [c]) = digits_value s * 32 + digit_bits c.
Proof. unfold digits_value. rewrite map_app. cbn [map]. apply value_be_snoc. Qed.

Lemma digits_value_nonneg s : 0 <= digits_value s.
Proof.
  unfold digits_value.
  apply (value_be_bound 32 ltac:(lia)).
  apply Forall_forall. intros d Hd. apply in_map_iff in Hd as [x [<- _]].
  apply digit_bits_range.
Qed.

(** The state of [Decode] after the digits read so far: [shift] bits at
    the bottom of [tmp] are still to be written, and the bytes written are
    the bits before them. *)
Definition Decode_inv (s : std_string) (st : state Z) : Prop :=
  exists (m : nat) (sh : Z),
    st = (digits_value s mod 65536, sh,
          digits_be 256 m (digits_value s / 2 ^ sh))
    /\ 8 * Z.of_nat m + sh = 5 * Z.of_nat (length s)
    /\ 0 <= sh <= 7.

Lemma Decode_loop_inv s :
  Decode_inv s (fold_left Decode_step s (0, 0, [])).
Proof.
  induction s as [|c s IH] using rev_ind.
  - exists 0%nat, 0. repeat split; try reflexivity; lia.
  - destruct IH as (m & sh & Hst & Hm & Hsh).
    unfold Decode_inv.
    rewrite fold_left_app. cbn [fold_left]. rewrite Hst. unfold Decode_step.
    pose proof (digits_value_nonneg s) as HU.
    pose proof (digit_bits_range c) as Hc.
    rewrite Decode_tmp by (apply Z.mod_pos_bound; lia).
    rewrite length_app, digits_value_snoc. simpl length.
    unfold digit_bits in *. rewrite Mask_land in *.
    set (d := Value c mod 32) in *. set (U := digits_value s) in *.
    replace ((U mod 65536 * 32 + d) mod 65536)
      with ((U * 32 + d) mod 65536) by divmod.
    set (U' := U * 32 + d).
    assert (HU' : 0 <= U') by (unfold U'; lia).
    assert (Hd : U' / 2 ^ 5 = U) by (unfold U'; change (2 ^ 5) with 32; divmod).
    unfold CharBits, CHAR_BIT, DigitBits.
    destruct (Z.leb_spec 8 (sh + 5)) as [Hemit|Hkeep].
    + exists (S m), (sh - 3). repeat split; try lia.
      f_equal; [f_equal; lia|].
      cbn [digits_be]. rewrite to_uint8_mod, Z.shiftr_div_pow2 by lia.
      change 256 with (2 ^ 8).
      rewrite field_of_tmp, div_pow2_pow2 by lia.
      replace (sh + 5 - 8) with (sh - 3) by lia.
      replace (sh - 3 + 8) with (5 + sh) by lia.
      now rewrite <- (div_pow2_pow2 U' 5 sh), Hd by lia.
    + exists m, (sh + 5). repeat split; try lia.
      f_equal.
      replace (sh + 5) with (5 + sh) by lia.
      now rewrite <- (div_pow2_pow2 U' 5 sh), Hd by lia.
Qed.

Lemma Decode_loop_shift c :
  let '(_, shift, _) := Decode_loop c in 0 <= shift <= 7.
Proof.
  unfold Decode_loop.
  destruct (Decode_loop_inv (str_ c)) as (m & sh & -> & _ & Hsh). lia.
Qed.

Lemma ceil_div_8 m sh n :
  8 * Z.of_nat m + sh = 5 * Z.of_nat n -> 0 <= sh <= 7 ->
  decoded_length n = if 0 <? sh then S m else m.
Proof.
  intros Hm Hsh. unfold decoded_length, ceil_div.
  destruct (Z.eqb_spec ((5 * Z.of_nat n) mod 8) 0);
    destruct (Z.ltb_spec 0 sh);
    apply Nat2Z.inj; rewrite Z2Nat.id; divmod.
Qed.

(** The bytes [Decode] computes for the digits [s]: the digits, read as one
    number and scaled to a whole number of bytes, in base 256. *)
Definition decoded_values (s : std_string) : list Z :=
  let n := length s in
  let M := decoded_length n in
  digits_be 256 M (digits_value s * 2 ^ (8 * Z.of_nat M - 5 * Z.of_nat n)).

(** [Decode] writes those bytes. *)
Theorem Decode_radix c : Decode c = decoded_values (str_ c).
Proof.
  unfold decoded_values.
  set (n := length (str_ c)). set (M := decoded_length n).
  unfold Decode, Decode_loop.
  destruct (Decode_loop_inv (str_ c)) as (m & sh & Hst & Hm & Hsh).
  rewrite Hst. fold n in Hm.
  pose proof (digits_value_nonneg (str_ c)) as HU.
  set (U := digits_value (str_ c)) in *.
  unfold M. rewrite (ceil_div_8 m sh n Hm Hsh).
  unfold CharBits, CHAR_BIT.
  destruct (Z.ltb_spec 0 sh) as [Hpos|Hzero].
  - replace (8 * Z.of_nat (S m) - 5 * Z.of_nat n) with (8 - sh) by lia.
    rewrite to_uint8_mod, to_uint16_mod, Z.shiftl_mul_pow2 by lia.
    cbn [digits_be].
    assert (Hlast : (U mod 65536 * 2 ^ (8 - sh)) mod 65536 mod 256
                    = (U * 2 ^ (8 - sh)) mod 256
                    /\ U * 2 ^ (8 - sh) / 256 = U / 2 ^ sh).
    { assert (Hc : sh = 1 \/ sh = 2 \/ sh = 3 \/ sh = 4 \/ sh = 5
                   \/ sh = 6 \/ sh = 7) by lia.
      destruct Hc as [->|[->|[->|[->|[->|[->| ->]]]]]]; cbn; split; divmod. }
    destruct Hlast as [-> ->]. reflexivity.
  - replace sh with 0 in * by lia.
    replace (8 * Z.of_nat m - 5 * Z.of_nat n) with 0 by lia.
    now rewrite Z.pow_0_r, Z.div_1_r, Z.mul_1_r.
Qed.

End Repack.

(** ** The encoding as the documentation words it

    "Treat the byte sequence as a single bit sequence (MSB-first within each
    byte, bytes concatenated in order).  Partition this bit sequence into
    consecutive 5-bit groups, MSB-first.  If the final group has fewer than 5
    bits, the incomplete tail bits become the high bits of the last digit,
    zero-filled in the low bits.  Each 5-bit group maps to its alphabet
    digit." *)

Module BitSpec.
Import Machine Base32 Radix Bits Repack.

(** The eight bits of a byte, most significant first. *)
Definition bits_of_byte (x : Z) : list bool :=
  map (Z.testbit x) [7; 6; 5; 4; 3; 2; 1; 0].

(** The bytes as one bit sequence. *)
Definition bit_sequence (bytes : list Z) : list bool :=
  flat_map bits_of_byte bytes.

(** Consecutive groups of five bits; an incomplete last group is filled
    with zero bits after its own. *)
Fixpoint groups5 (bits : list bool) : list (list bool) :=
  match bits with
  | [] => []
  | b1 :: b2 :: b3 :: b4 :: b5 :: rest =>
      [b1; b2; b3; b4; b5] :: groups5 rest
  | tail => [tail ++ repeat false (5 - length tail)]
  end.

(** The number a bit list denotes, most significant bit first. *)
Definition bits_value (bits : list bool) : Z := value_be 2 (map Z.b2z bits).

(** The digits of the bit-level description. *)
Definition encode_spec (bytes : list Z) : std_string :=
  map (fun g => Digit (bits_value g)) (groups5 (bit_sequence bytes)).

Lemma list_ind5 (P : list bool -> Prop) :
  P [] ->
  (forall a, P [a]) ->
  (forall a b, P [a; b]) ->
  (forall a b c, P [a; b; c]) ->
  (forall a b c d, P [a; b; c; d]) ->
  (forall a b c d e r, P r -> P (a :: b :: c :: d :: e :: r)) ->
  forall l, P l.
Proof.
  intros H0 H1 H2 H3 H4 H5.
  fix IH 1. intros [|a [|b [|c [|d [|e r]]]]];
    [apply H0|apply H1|apply H2|apply H3|apply H4|apply H5; apply IH].
Qed.

Lemma bits_value_app xs ys :
  bits_value (xs ++ ys)
  = bits_value xs * 2 ^ Z.of_nat (length ys) + bits_value ys.
Proof.
  unfold bits_value. rewrite map_app, value_be_app.
  now rewrite length_map.
Qed.

Lemma bits_value_bound bits :
  0 <= bits_value bits < 2 ^ Z.of_nat (length bits).
Proof.
  unfold bits_value. rewrite <- (length_map Z.b2z).
  apply value_be_bound; [lia|].
  apply Forall_forall. intros d Hd. apply in_map_iff in Hd as [b [<- _]].
  unfold in_base. destruct b; simpl; lia.
Qed.

Lemma bits_of_byte_value x : bits_value (bits_of_byte x) = low8 x.
Proof.
  unfold bits_value, bits_of_byte, value_be, low8. cbn [map fold_left].
  rewrite !Z.testbit_spec' by lia.
  change (2 ^ 0) with 1; change (2 ^ 1) with 2; change (2 ^ 2) with 4;
    change (2 ^ 3) with 8; change (2 ^ 4) with 16; change (2 ^ 5) with 32;
    change (2 ^ 6) with 64; change (2 ^ 7) with 128.
  divmod.
Qed.

Lemma bit_sequence_length bytes :
  Z.of_nat (length (bit_sequence bytes)) = 8 * Z.of_nat (length bytes).
Proof.
  induction bytes as [|x bytes IH]; [reflexivity|].
  cbn [bit_sequence flat_map]. fold (bit_sequence bytes).
  rewrite length_app. cbn [length bits_of_byte map]. lia.
Qed.

Lemma bit_sequence_value bytes :
  bits_value (bit_sequence bytes) = bytes_value bytes.
Proof.
  induction bytes as [|x bytes IH]; [reflexivity|].
  cbn [bit_sequence flat_map]. fold (bit_sequence bytes).
  rewrite bits_value_app, bits_of_byte_value, IH, bit_sequence_length.
  unfold bytes_value. cbn [map]. rewrite value_be_cons, length_map.
  rewrite Z.pow_mul_r by lia. reflexivity.
Qed.

Lemma ceil_div_5_pad L :
  0 <= L -> 0 <= 5 * ceil_div L 5 - L <= 4.
Proof.
  intros HL. unfold ceil_div. destruct (Z.eqb_spec (L mod 5) 0); divmod.
Qed.

Lemma ceil_div_5_step L :
  0 <= L -> ceil_div (5 + L) 5 = 1 + ceil_div L 5.
Proof.
  intros HL. unfold ceil_div.
  replace ((5 + L) mod 5) with (L mod 5) by divmod.
  replace ((5 + L) / 5) with (1 + L / 5) by divmod. lia.
Qed.

(** The values of the groups are the base-32 digits of the bit sequence,
    scaled to a whole number of groups. *)
Lemma groups5_radix bits :
  let L := Z.of_nat (length bits) in
  let K := Z.to_nat (ceil_div L 5) in
  map bits_value (groups5 bits)
  = digits_be 32 K (bits_value bits * 2 ^ (5 * Z.of_nat K - L)).
Proof.
  induction bits as [|a|a b|a b c|a b c d|a b c d e r IH] using list_ind5.
  - reflexivity.
  - destruct a; reflexivity.
  - destruct a, b; reflexivity.
  - destruct a, b, c; reflexivity.
  - destruct a, b, c, d; reflexivity.
  - cbv zeta in *.
    change (groups5 (a :: b :: c :: d :: e :: r))
      with ([a; b; c; d; e] :: groups5 r).
    cbn [map]. rewrite IH. clear IH.
    change (a :: b :: c :: d :: e :: r) with ([a; b; c; d; e] ++ r).
    rewrite bits_value_app, length_app, Nat2Z.inj_add.
    change (Z.of_nat (length [a; b; c; d; e])) with 5.
    set (Lr := Z.of_nat (length r)).
    assert (HLr : 0 <= Lr) by (unfold Lr; lia).
    rewrite ceil_div_5_step by assumption.
    pose proof (ceil_div_5_pad Lr HLr) as Hpad.
    set (Kr := ceil_div Lr 5) in *.
    rewrite Z2Nat.inj_add, Z2Nat.id by lia.
    change (Z.to_nat 1) with 1%nat. cbn [Nat.add].
    rewrite Nat2Z.inj_succ, Z2Nat.id by lia.
    replace (5 * Z.succ Kr - (5 + Lr)) with (5 * Kr - Lr) by lia.
    pose proof (bits_value_bound [a; b; c; d; e]) as H5.
    change (Z.of_nat (length [a; b; c; d; e])) with 5 in H5.
    change (2 ^ 5) with 32 in H5.
    pose proof (bits_value_bound r) as Hr. fold Lr in Hr.
    set (v5 := bits_value [a; b; c; d; e]) in *.
    set (vr := bits_value r) in *.
    assert (Hpow : 2 ^ Lr * 2 ^ (5 * Kr - Lr) = 32 ^ Z.of_nat (Z.to_nat Kr)).
    { rewrite <- Z.pow_add_r by lia. rewrite Z2Nat.id by lia.
      replace (Lr + (5 * Kr - Lr)) with (5 * Kr) by lia.
      now rewrite Z.pow_mul_r by lia. }
    replace ((v5 * 2 ^ Lr + vr) * 2 ^ (5 * Kr - Lr))
      with (v5 * 32 ^ Z.of_nat (Z.to_nat Kr) + vr * 2 ^ (5 * Kr - Lr))
      by (rewrite <- Hpow; ring).
    symmetry. apply digits_be_cons; [lia|lia|].
    rewrite <- Hpow.
    assert (0 < 2 ^ (5 * Kr - Lr)) by (apply Z.pow_pos_nonneg; lia).
    nia.
Qed.

(** The bit-level description and the loops of [Encode] agree. *)
Theorem encode_spec_values bytes :
  encode_spec bytes = map Digit (encoded_values bytes).
Proof.
  unfold encode_spec, encoded_values, encoded_length.
  rewrite <- (map_map bits_value Digit), groups5_radix.
  cbv zeta. now rewrite bit_sequence_length, bit_sequence_value.
Qed.

End BitSpec.

(** ** Composing the two directions *)

Module Roundtrip.
Import Machine Base32 Radix Bits Repack.

Lemma digit_bits_Digit d : 0 <= d < 32 -> digit_bits (Digit d) = d.
Proof.
  intros Hd. rewrite <- (Z2Nat.id d) by lia.
  assert (Hn : (Z.to_nat d < 32)%nat) by lia.
  revert Hn. generalize (Z.to_nat d). intros n Hn.
  do 32 (destruct n as [|n]; [reflexivity|]). lia.
Qed.

Lemma Digit_digit_bits ch : In ch Digits -> Digit (digit_bits ch) = ch.
Proof.
  unfold Digits. cbn [In]. intros H.
  repeat (destruct H as [<-|H]; [reflexivity|]). contradiction.
Qed.

Lemma map_digit_bits_Digit ds :
  Forall (in_base 32) ds -> map digit_bits (map Digit ds) = ds.
Proof.
  induction 1 as [|d ds Hd _ IH]; [reflexivity|].
  cbn [map]. now rewrite digit_bits_Digit, IH.
Qed.

Lemma map_Digit_digit_bits s :
  Forall (fun ch => In ch Digits) s -> map Digit (map digit_bits s) = s.
Proof.
  induction 1 as [|ch s Hch _ IH]; [reflexivity|].
  cbn [map]. now rewrite Digit_digit_bits, IH.
Qed.

Lemma map_low8_bytes bytes : Forall is_byte bytes -> map low8 bytes = bytes.
Proof.
  induction 1 as [|x bytes Hx _ IH]; [reflexivity|].
  cbn [map]. rewrite IH. f_equal. apply Z.mod_small. exact Hx.
Qed.

Lemma bytes_value_bound bytes :
  0 <= bytes_value bytes < 2 ^ (8 * Z.of_nat (length bytes)).
Proof.
  unfold bytes_value. rewrite Z.pow_mul_r by lia. change (2 ^ 8) with 256.
  rewrite <- (length_map low8). apply value_be_bound; [lia|].
  apply Forall_forall. intros d Hd. apply in_map_iff in Hd as [x [<- _]].
  apply low8_range.
Qed.

Lemma digits_value_bound s :
  0 <= digits_value s < 2 ^ (5 * Z.of_nat (length s)).
Proof.
  unfold digits_value. rewrite Z.pow_mul_r by lia. change (2 ^ 5) with 32.
  rewrite <- (length_map digit_bits). apply value_be_bound; [lia|].
  apply Forall_forall. intros d Hd. apply in_map_iff in Hd as [x [<- _]].
  apply digit_bits_range.
Qed.

(** A number below [2 ^ a], scaled by [2 ^ b], stays below [2 ^ (a + b)]. *)
Lemma scaled_bound V a b :
  0 <= a -> 0 <= b -> 0 <= V < 2 ^ a -> 0 <= V * 2 ^ b < 2 ^ (a + b).
Proof.
  intros Ha Hb HV. rewrite Z.pow_add_r by assumption.
  assert (0 < 2 ^ b) by (apply Z.pow_pos_nonneg; lia). nia.
Qed.

(** How many digits, and how many bytes. *)
Lemma encoded_length_spec l :
  let K := Z.of_nat (encoded_length l) in
  8 * Z.of_nat l <= 5 * K <= 8 * Z.of_nat l + 4.
Proof.
  cbv zeta. unfold encoded_length, ceil_div.
  destruct (Z.eqb_spec ((8 * Z.of_nat l) mod 5) 0);
    rewrite Z2Nat.id; divmod.
Qed.

Lemma decoded_length_spec n :
  let M := Z.of_nat (decoded_length n) in
  5 * Z.of_nat n <= 8 * M <= 5 * Z.of_nat n + 7.
Proof.
  cbv zeta. unfold decoded_length, ceil_div.
  destruct (Z.eqb_spec ((5 * Z.of_nat n) mod 8) 0);
    rewrite Z2Nat.id; divmod.
Qed.

(** The bytes [Decode] writes for the digits of [Encode]: the low eight
    bits of every input element, then zero bytes up to the decoded
    length. *)
Lemma decoded_encoded_values bytes :
  let l := length bytes in
  let M := decoded_length (encoded_length l) in
  decoded_values (map Digit (encoded_values bytes))
  = map low8 bytes ++ repeat 0 (M - l).
Proof.
  intros l M. subst M. set (K := encoded_length l).
  set (M := decoded_length K). unfold decoded_values.
  rewrite length_map, encoded_values_length. fold l. fold K. fold M.
  unfold digits_value.
  rewrite map_digit_bits_Digit by apply encoded_values_in_base.
  unfold encoded_values. fold l. fold K.
  pose proof (encoded_length_spec l) as HK. cbv zeta in HK. fold K in HK.
  pose proof (decoded_length_spec K) as HM. cbv zeta in HM. fold M in HM.
  pose proof (bytes_value_bound bytes) as HV. fold l in HV.
  set (V := bytes_value bytes) in *.
  rewrite value_be_digits.
  2:{ lia. }
  2:{ change 32 with (2 ^ 5). rewrite <- Z.pow_mul_r by lia.
      replace (2 ^ (5 * Z.of_nat K))
        with (2 ^ (8 * Z.of_nat l + (5 * Z.of_nat K - 8 * Z.of_nat l)))
        by (f_equal; lia).
      apply scaled_bound; lia. }
  rewrite <- Z.mul_assoc, <- Z.pow_add_r by lia.
  replace (5 * Z.of_nat K - 8 * Z.of_nat l
           + (8 * Z.of_nat M - 5 * Z.of_nat K))
    with (8 * Z.of_nat (M - l)) by lia.
  rewrite Z.pow_mul_r by lia. change (2 ^ 8) with 256.
  replace M with (l + (M - l))%nat at 1 by lia.
  rewrite digits_be_shift by lia. f_equal.
  unfold V, bytes_value, l. rewrite <- (length_map low8 bytes).
  apply digits_be_value; [lia|].
  apply Forall_forall. intros d Hd. apply in_map_iff in Hd as [x [<- _]].
  apply low8_range.
Qed.

(** The digit values [Encode] computes for the bytes of [Decode]: the
    digits read, then zeros up to the encoded length. *)
Lemma encoded_decoded_values s :
  let n := length s in
  let K := encoded_length (decoded_length n) in
  encoded_values (decoded_values s) = map digit_bits s ++ repeat 0 (K - n).
Proof.
  intros n K. subst K. set (M := decoded_length n).
  set (K := encoded_length M). unfold encoded_values.
  assert (Hlen : length (decoded_values s) = M) by apply digits_be_length.
  rewrite Hlen. fold K.
  pose proof (decoded_length_spec n) as HM. cbv zeta in HM. fold M in HM.
  pose proof (encoded_length_spec M) as HK. cbv zeta in HK. fold K in HK.
  pose proof (digits_value_bound s) as HU. fold n in HU.
  unfold bytes_value.
  replace (map low8 (decoded_values s)) with (decoded_values s).
  2:{ symmetry. apply map_low8_bytes. apply digits_be_in_base. lia. }
  unfold decoded_values. fold n. fold M.
  set (U := digits_value s) in *.
  rewrite value_be_digits.
  2:{ lia. }
  2:{ change 256 with (2 ^ 8). rewrite <- Z.pow_mul_r by lia.
      replace (2 ^ (8 * Z.of_nat M))
        with (2 ^ (5 * Z.of_nat n + (8 * Z.of_nat M - 5 * Z.of_nat n)))
        by (f_equal; lia).
      apply scaled_bound; lia. }
  rewrite <- Z.mul_assoc, <- Z.pow_add_r by lia.
  replace (8 * Z.of_nat M - 5 * Z.of_nat n
           + (5 * Z.of_nat K - 8 * Z.of_nat M))
    with (5 * Z.of_nat (K - n)) by lia.
  rewrite Z.pow_mul_r by lia. change (2 ^ 5) with 32.
  replace K with (n + (K - n))%nat at 1 by lia.
  rewrite digits_be_shift by lia. f_equal.
  unfold U, digits_value, n. rewrite <- (length_map digit_bits s).
  apply digits_be_value; [lia|].
  apply Forall_forall. intros d Hd. apply in_map_iff in Hd as [x [<- _]].
  apply digit_bits_range.
Qed.

(** [DecodedSize] within the range of [int]. *)
Lemma DecodedSize_in_range d :
  0 <= d -> 5 * d <= INT_MAX -> DecodedSize d = ceil_div (5 * d) 8.
Proof.
  unfold INT_MAX. intros Hd Hmax.
  unfold DecodedSize, div, DigitBits, CharBits, CHAR_BIT, ceil_div.
  cbn [fst snd].
  rewrite (to_int_id d) by (unfold INT_MAX; lia).
  rewrite (to_int_id (d * 5)) by (unfold INT_MAX; lia).
  rewrite Z.quot_div_nonneg, Z.rem_mod_nonneg by lia.
  replace (d * 5) with (5 * d) by lia.
  assert (Hq : 0 <= 5 * d / 8 <= 2 ^ 31 - 2) by divmod.
  destruct (Z.eqb_spec ((5 * d) mod 8) 0);
    (rewrite to_int_id by (unfold INT_MAX; lia));
    unfold to_size_t, wrap_unsigned; apply Z.mod_small; lia.
Qed.

End Roundtrip.

(** ** The character classes of the documentation *)

Module CharSpec.
Import Machine Base32.

(** The characters read as zero, and as one. *)
Definition zero_aliases : list ascii := str "0oO".
Definition one_aliases : list ascii := str "1iIlL".

(** The alphabet characters other than ['0'] and ['1']. *)
Definition other_digits : list ascii := str "23456789ABCDEFGHJKMNPQRSTVWXYZ".

Definition is_upper_letter (c : ascii) : bool :=
  (65 <=? nat_of_ascii c)%nat && (nat_of_ascii c <=? 90)%nat.

(** The lowercase form of an uppercase letter, and back. *)
Definition lowercase (c : ascii) : ascii := ascii_of_nat (nat_of_ascii c + 32).
Definition uppercase (c : ascii) : ascii := ascii_of_nat (nat_of_ascii c - 32).

(** The lowercase forms of the letters of [other_digits]. *)
Definition lower_letters : list ascii :=
  map lowercase (filter is_upper_letter other_digits).

(** The non-canonical characters that are accepted. *)
Definition aliases : list ascii := str "oOiIlL" ++ lower_letters.

(** The alphabet and its aliases. *)
Definition valid_chars : list ascii :=
  zero_aliases ++ one_aliases ++ other_digits ++ lower_letters.

(** The characters the documentation names as outside the alphabet. *)
Definition is_control (c : ascii) : bool :=
  (nat_of_ascii c <? 32)%nat || (nat_of_ascii c =? 127)%nat.

Definition is_punctuation (c : ascii) : bool :=
  let n := nat_of_ascii c in
  ((32 <=? n) && (n <=? 47) || (58 <=? n) && (n <=? 64)
   || (91 <=? n) && (n <=? 96) || (123 <=? n) && (n <=? 126))%nat.

Definition is_non_ascii (c : ascii) : bool := (128 <=? nat_of_ascii c)%nat.

(** Every character, case by case. *)
Ltac each_char c := destruct c as [[] [] [] [] [] [] [] []].

Lemma existsb_In c (l : list ascii) :
  existsb (Ascii.eqb c) l = true -> In c l.
Proof.
  intros H. apply existsb_exists in H as [x [Hx E]].
  apply Ascii.eqb_eq in E. now subst.
Qed.

(** Membership in a list that is written out. *)
Ltac in_list := apply existsb_In; vm_compute; reflexivity.

(** The cases of a hypothesis of membership in such a list. *)
Ltac cases_in H :=
  vm_compute in H; repeat (destruct H as [<-|H]); [..|contradiction].

Lemma Canonical_invalid c : ~ In c valid_chars -> Canonical c = InvalidDigit.
Proof.
  intros H. each_char c; try reflexivity; exfalso; apply H; in_list.
Qed.

Lemma Canonical_outside c :
  In c (str "Uu") \/ is_punctuation c = true \/ is_control c = true
  \/ is_non_ascii c = true ->
  Canonical c = InvalidDigit.
Proof.
  intros [H|H]; [cases_in H; reflexivity|].
  revert H. each_char c; intros [H|[H|H]];
    first [reflexivity|discriminate H].
Qed.

Lemma Canonical_idempotent c : Canonical (Canonical c) = Canonical c.
Proof. each_char c; reflexivity. Qed.

Lemma Value_assertion_holds c : Value_assertion c = true.
Proof. each_char c; reflexivity. Qed.

Lemma IsValid_iff c : IsValid c = true <-> Canonical c <> InvalidDigit.
Proof.
  unfold IsValid.
  destruct (Ascii.eqb_spec (Canonical c) InvalidDigit) as [E|E]; cbn;
    split; intros H; congruence.
Qed.

(** The constructor's loop throws at the first invalid character. *)
Lemma canonicalize_invalid s :
  (exists c, In c s /\ Canonical c = InvalidDigit) ->
  canonicalize s = inl (invalid_argument "Invalid Base32 digit").
Proof.
  induction s as [|a s IH]; intros (c & Hin & Hc).
  - destruct Hin.
  - cbn [canonicalize].
    destruct (Ascii.eqb_spec (Canonical a) InvalidDigit) as [E|E];
      [reflexivity|].
    destruct Hin as [->|Hin]; [contradiction|].
    now rewrite IH by (exists c; auto).
Qed.

(** Without one, it replaces every character by its canonical form. *)
Lemma canonicalize_valid s :
  (forall c, In c s -> Canonical c <> InvalidDigit) ->
  canonicalize s = inr (map Canonical s).
Proof.
  induction s as [|a s IH]; intros Hall; [reflexivity|].
  cbn [canonicalize map].
  destruct (Ascii.eqb_spec (Canonical a) InvalidDigit) as [E|E].
  - exfalso. apply (Hall a); [now left|assumption].
  - rewrite IH; [reflexivity|]. intros c Hc. apply Hall. now right.
Qed.

Lemma invalid_or_valid (s : std_string) :
  (exists c, In c s /\ Canonical c = InvalidDigit)
  \/ (forall c, In c s -> Canonical c <> InvalidDigit).
Proof.
  induction s as [|a s [(c & Hin & Hc)|IH]].
  - right. intros c [].
  - left. exists c. split; [now right|assumption].
  - destruct (Ascii.eqb_spec (Canonical a) InvalidDigit) as [E|E].
    + left. exists a. split; [now left|assumption].
    + right. intros c [<-|Hc]; auto.
Qed.

End CharSpec.

(** ** The expectations of test_Base32Code.cpp, on the embedding *)

Module Tests.
Import Machine Base32.

Definition code (s : string) : exception + Base32Code :=
  inr {| str_ := str s |}.

(** [ExpectedEncodings]. *)
Definition ExpectedEncodings : list (list Z * string) :=
  [ ([], EmptyString);
    ([0x00], "00");
    ([0xf8], "Z0");
    ([0xf8; 0x3e], "Z0Z0");
    ([0x08; 0x86], "1230");
    ([0x07; 0xc1; 0xf0], "0Z0Z0");
    ([0x21; 0x4c; 0x70], "45670");
    ([0xf8; 0x3e; 0x0f; 0x80], "Z0Z0Z00");
    ([0x42; 0x54; 0xb6; 0x00], "89ABC00");
    ([0x07; 0xc1; 0xf0; 0x7c], "0Z0Z0Z0");
    ([0x6b; 0x9f; 0x08; 0xc8], "DEFGHJ0");
    ([0xf8; 0x3e; 0x0f; 0x83; 0xe0], "Z0Z0Z0Z0");
    ([0x9d; 0x2b; 0x6b; 0xe3; 0x20], "KMNPQRS0");
    ([0x07; 0xc1; 0xf0; 0x7c; 0x1f], "0Z0Z0Z0Z");
    ([0xd6; 0xf9; 0xdf; 0x7c; 0x01], "TVWXYZ01");
    ([0xf8; 0x3e; 0x0f; 0x83; 0xe0; 0xf8],
     "Z0Z0Z0Z0Z0") ]%string.

(** [ExpectedDecodings]. *)
Definition ExpectedDecodings : list (list Z * string) :=
  [ ([], EmptyString);
    ([0x00], "0");
    ([0xf8], "Z");
    ([0x07; 0xc0], "0Z");
    ([0xf8; 0x3e], "Z0Z");
    ([0x08; 0x86], "123");
    ([0x07; 0xc1; 0xf0], "0Z0Z");
    ([0x21; 0x4c; 0x70], "4567");
    ([0xf8; 0x3e; 0x0f; 0x80], "Z0Z0Z");
    ([0x42; 0x54; 0xb6; 0x00], "89ABC");
    ([0x07; 0xc1; 0xf0; 0x7c], "0Z0Z0Z");
    ([0x6b; 0x9f; 0x08; 0xc8], "DEFGHJ");
    ([0xf8; 0x3e; 0x0f; 0x83; 0xe0], "Z0Z0Z0Z");
    ([0x9d; 0x2b; 0x6b; 0xe3; 0x20], "KMNPQRS");
    ([0x07; 0xc1; 0xf0; 0x7c; 0x1f], "0Z0Z0Z0Z");
    ([0xd6; 0xf9; 0xdf; 0x7c; 0x01], "TVWXYZ01");
    ([0xf8; 0x3e; 0x0f; 0x83; 0xe0; 0xf8],
     "Z0Z0Z0Z0Z") ]%string.

(** TEST(Base32Code, Encode) *)
Example test_Encode :
  forallb (fun x =>
             match Encode (fst x), make (str (snd x)) with
             | inr actual, inr expected =>
                 if list_eq_dec ascii_dec (Str actual) (Str expected)
                 then true else false
             | _, _ => false
             end) ExpectedEncodings = true.
Proof. vm_compute. reflexivity. Qed.

(** TEST(Base32Code, Decode) *)
Example test_Decode :
  forallb (fun x =>
             match make (str (snd x)) with
             | inr c =>
                 if list_eq_dec Z.eq_dec (Decode c) (fst x)
                 then DecodedSize (Size c) =? Z.of_nat (length (fst x))
                 else false
             | inl _ => false
             end) ExpectedDecodings = true.
Proof. vm_compute. reflexivity. Qed.

(** TEST(Base32Code, CanonicalForm) *)
Example test_CanonicalForm :
  make (str "0123456789abcdefghjkmnpqrstvwxyzoOlLiI")
  = code "0123456789ABCDEFGHJKMNPQRSTVWXYZ001111".
Proof. reflexivity. Qed.

(** TEST(Base32Code, DecodedSize) *)
Example test_DecodedSize :
  map DecodedSize [0; 1; 2; 3; 4; 5; 6; 7; 8; 9; 14; 15; 16; 17; 78; 79; 80; 81]
  = [0; 1; 2; 2; 3; 4; 4; 5; 5; 6; 9; 10; 10; 11; 49; 50; 50; 51].
Proof. reflexivity. Qed.

End Tests.

Import Machine Base32 Radix Bits Repack BitSpec Roundtrip CharSpec.

(** ** The documented properties *)

(** C6: [Canonical] is defined on every character: ['0'], ['o'], ['O'] go to
    ['0']; ['1'], ['i'], ['I'], ['l'], ['L'] go to ['1']; every other
    alphabet character goes to itself and the lowercase form of each such
    letter to the letter; every character outside these (among them ['U'],
    ['u'], punctuation, control characters and the characters outside
    ASCII) goes to the sentinel [InvalidDigit]; and [IsValid c] holds exactly
    when [Canonical c] is not the sentinel. *)
Theorem Canonical_total :
  forall c : ascii,
    (In c zero_aliases -> Canonical c = "0"%char)
    /\ (In c one_aliases -> Canonical c = "1"%char)
    /\ (In c other_digits -> Canonical c = c)
    /\ (In c other_digits -> is_upper_letter c = true ->
        Canonical (lowercase c) = c)
    /\ (~ In c valid_chars -> Canonical c = InvalidDigit)
    /\ (In c (str "Uu") \/ is_punctuation c = true \/ is_control c = true
        \/ is_non_ascii c = true -> Canonical c = InvalidDigit)
    /\ (IsValid c = true <-> Canonical c <> InvalidDigit).
Proof.
  intros c. repeat split.
  - intros H. cases_in H; reflexivity.
  - intros H. cases_in H; reflexivity.
  - intros H. cases_in H; reflexivity.
  - intros H. cases_in H; intros L; try reflexivity; discriminate L.
  - apply Canonical_invalid.
  - apply Canonical_outside.
  - apply IsValid_iff.
  - apply IsValid_iff.
Qed.

(** C7: [Canonical] is idempotent; on every alias it gives the documented
    target (['o'], ['O'] to ['0']; ['i'], ['I'], ['l'], ['L'] to ['1']; a
    lowercase letter to its uppercase), and the target is a digit of the
    alphabet that [Canonical] leaves as it is. *)
Theorem Canonical_idempotence :
  (forall x, Canonical (Canonical x) = Canonical x)
  /\ (forall x, In x (str "oO") -> Canonical x = "0"%char)
  /\ (forall x, In x (str "iIlL") -> Canonical x = "1"%char)
  /\ (forall x, In x lower_letters -> Canonical x = uppercase x)
  /\ (forall x, In x aliases ->
      In (Canonical x) Digits /\ Canonical (Canonical x) = Canonical x).
Proof.
  split; [exact Canonical_idempotent|].
  split; [|split; [|split]]; intros x H.
  - cases_in H; reflexivity.
  - cases_in H; reflexivity.
  - cases_in H; reflexivity.
  - split; [|apply Canonical_idempotent].
    cases_in H; in_list.
Qed.

(** C8: constructing a code from [s] throws [std::invalid_argument] exactly
    when some character of [s] has no canonical form; otherwise the code
    holds [s] with every character replaced by its canonical form.  The
    empty string gives the code of size zero. *)
Theorem constructor_canonicalizes :
  forall s : std_string,
    ((exists c, In c s /\ Canonical c = InvalidDigit)
     <-> make s = inl (invalid_argument "Invalid Base32 digit"))
    /\ ((forall c, In c s -> Canonical c <> InvalidDigit)
        <-> exists code, make s = inr code /\ Str code = map Canonical s)
    /\ (exists code, make (str EmptyString) = inr code
                     /\ Str code = [] /\ Size code = 0).
Proof.
  intros s.
  pose proof (canonicalize_invalid s) as Hinv.
  pose proof (canonicalize_valid s) as Hval.
  pose proof (invalid_or_valid s) as Hdec.
  unfold make. split; [split|split; [split|]].
  - intros H. now rewrite Hinv.
  - intros H. destruct Hdec as [Hbad|Hgood]; [assumption|].
    rewrite Hval in H by assumption. discriminate H.
  - intros H. rewrite Hval by assumption. eexists. split; reflexivity.
  - intros (code & H & _) c Hc Hinvalid.
    rewrite Hinv in H by (exists c; auto). discriminate H.
  - exists {| str_ := [] |}. repeat split.
Qed.

(** C9: [Digits] is the 32 distinct characters
    0123456789ABCDEFGHJKMNPQRSTVWXYZ in ascending order of value: for every
    [i] from 0 to 31, [Value (Digits[i])] is [i] and [Digit i] is
    [Digits[i]]. [Digit v] is the sentinel [InvalidDigit] for every [char]
    value [v] outside that range, and [Value c] is [-1] for every invalid
    character [c]. *)
Theorem Digits_table :
  Digits = str "0123456789ABCDEFGHJKMNPQRSTVWXYZ"
  /\ length Digits = 32%nat
  /\ NoDup Digits
  /\ (forall i, 0 <= i <= 31 ->
      Value (nth (Z.to_nat i) Digits InvalidDigit) = i
      /\ Digit i = nth (Z.to_nat i) Digits InvalidDigit
      /\ Digit i <> InvalidDigit)
  /\ (forall v, is_char v -> ~ 0 <= v <= 31 -> Digit v = InvalidDigit)
  /\ (forall c, IsValid c = false -> Value c = InvalidValue).
Proof.
  split; [reflexivity|]. split; [reflexivity|]. split; [|split; [|split]].
  - apply (NoDup_map_inv (fun c => Z.to_nat (Value c))).
    change (map (fun c => Z.to_nat (Value c)) Digits) with (seq 0 32).
    apply seq_NoDup.
  - assert (Hn : forall n, (n < 32)%nat ->
                 Value (nth n Digits InvalidDigit) = Z.of_nat n
                 /\ Digit (Z.of_nat n) = nth n Digits InvalidDigit
                 /\ Digit (Z.of_nat n) <> InvalidDigit).
    { intros n Hn.
      do 32 (destruct n as [|n];
             [repeat split; first [reflexivity|discriminate]|]).
      lia. }
    intros i Hi. specialize (Hn (Z.to_nat i) ltac:(lia)).
    rewrite Z2Nat.id in Hn by lia. exact Hn.
  - intros v Hv Hout. unfold Digit, is_char in *.
    destruct (Z.ltb_spec v 0) as [Hneg|Hpos]; [reflexivity|].
    unfold to_size_t, wrap_unsigned. rewrite Z.mod_small by lia.
    destruct (Z.leb_spec sizeof_Digits v) as [Hbig|Hsmall]; [reflexivity|].
    change sizeof_Digits with 32 in Hsmall. lia.
  - intros c Hc. unfold IsValid in Hc. unfold Value.
    apply negb_false_iff, Ascii.eqb_eq in Hc. now rewrite Hc.
Qed.

(** *** Round trips *)

Lemma Digit_in_Digits d : 0 <= d < 32 -> In (Digit d) Digits.
Proof.
  intros Hd. rewrite <- (Z2Nat.id d) by lia.
  assert (Hn : (Z.to_nat d < 32)%nat) by lia.
  revert Hn. generalize (Z.to_nat d). intros n Hn.
  do 32 (destruct n as [|n]; [in_list|]). lia.
Qed.

(** What [Encode] returns is a well-formed code. *)
Lemma Encode_wf bytes : wf {| str_ := map Digit (encoded_values bytes) |}.
Proof.
  unfold wf. cbn [str_]. apply Forall_forall. intros ch Hch.
  apply in_map_iff in Hch as (d & <- & Hd).
  apply Digit_in_Digits.
  exact (proj1 (Forall_forall _ _) (encoded_values_in_base bytes) d Hd).
Qed.

(** Decoding what [Encode] returns. *)
Lemma Decode_Encode bytes :
  Decode {| str_ := map Digit (encoded_values bytes) |}
  = map low8 bytes
      ++ repeat 0 (decoded_length (encoded_length (length bytes)) - length bytes).
Proof. rewrite Decode_radix. apply decoded_encoded_values. Qed.

(** Encoding what [Decode] writes. *)
Lemma Encode_Decode c :
  wf c ->
  Encode (Decode c)
  = inr {| str_ :=
            str_ c
              ++ repeat "0"%char
                   (encoded_length (decoded_length (length (str_ c)))
                    - length (str_ c)) |}.
Proof.
  intros Hwf. rewrite Encode_radix, Decode_radix, encoded_decoded_values.
  rewrite map_app, map_Digit_digit_bits by exact Hwf.
  now rewrite map_repeat.
Qed.

(** One padding byte unless the bytes fill a whole number of digits. *)
Lemma padding_bytes l :
  (decoded_length (encoded_length l) - l)%nat
  = if Z.of_nat l mod 5 =? 0 then 0%nat else 1%nat.
Proof.
  pose proof (encoded_length_spec l) as HK. cbv zeta in HK.
  pose proof (decoded_length_spec (encoded_length l)) as HM. cbv zeta in HM.
  destruct (Z.eqb_spec (Z.of_nat l mod 5) 0); apply Nat2Z.inj;
    rewrite Nat2Z.inj_sub_max; divmod.
Qed.

(** The padding digits: their number as the documentation computes it, and
    when there are none. *)
Lemma padding_digits n :
  let k := (encoded_length (decoded_length n) - n)%nat in
  Z.of_nat k = ceil_div (ceil_div (5 * Z.of_nat n) 8 * 8) 5 - Z.of_nat n
  /\ (k = 0%nat <-> (5 * Z.of_nat n) mod 8 = 0).
Proof.
  cbv zeta.
  pose proof (decoded_length_spec n) as HM. cbv zeta in HM.
  pose proof (encoded_length_spec (decoded_length n)) as HK. cbv zeta in HK.
  assert (HMz : Z.of_nat (decoded_length n) = ceil_div (5 * Z.of_nat n) 8).
  { unfold decoded_length. rewrite Z2Nat.id; [reflexivity|].
    unfold ceil_div. destruct (Z.eqb_spec ((5 * Z.of_nat n) mod 8) 0); divmod. }
  assert (HKz : Z.of_nat (encoded_length (decoded_length n))
                = ceil_div (ceil_div (5 * Z.of_nat n) 8 * 8) 5).
  { unfold encoded_length at 1. rewrite HMz, Z.mul_comm.
    rewrite Z2Nat.id; [reflexivity|].
    rewrite <- HMz. unfold ceil_div.
    destruct (Z.eqb_spec ((Z.of_nat (decoded_length n) * 8) mod 5) 0); divmod. }
  rewrite Nat2Z.inj_sub_max, HKz. rewrite <- HKz.
  split; [lia|].
  split; intros H.
  - assert (Z.of_nat (encoded_length (decoded_length n)) <= Z.of_nat n) by lia.
    divmod.
  - apply Nat2Z.inj. rewrite Nat2Z.inj_sub_max. divmod.
Qed.

(** The number of bytes [Decode] writes. *)
Lemma Decode_length c :
  Z.of_nat (length (Decode c)) = ceil_div (5 * Size c) 8.
Proof.
  rewrite Decode_radix. unfold decoded_values. rewrite digits_be_length.
  unfold decoded_length, Size. rewrite Z2Nat.id; [reflexivity|].
  unfold ceil_div.
  destruct (Z.eqb_spec ((5 * Z.of_nat (length (str_ c))) mod 8) 0); divmod.
Qed.

(** C10: every value [Encode] passes to [Digit] lies between 0 and 31, so the
    string it builds holds canonical digits only, never the sentinel
    [InvalidDigit], and the constructor called last does not throw: [Encode]
    returns a code for every input. *)
Theorem Encode_total :
  forall bytes : list Z,
    Forall (fun value => 0 <= value <= 31) (Digit_args bytes)
    /\ exists code,
        Encode bytes = inr code
        /\ Str code = map Digit (Digit_args bytes)
        /\ Forall (fun ch => In ch Digits) (Str code)
        /\ ~ In InvalidDigit (Str code).
Proof.
  intros bytes. rewrite Digit_args_radix. split.
  - eapply Forall_impl; [|apply encoded_values_in_base].
    unfold in_base. intros d Hd. lia.
  - exists {| str_ := map Digit (encoded_values bytes) |}.
    split; [apply Encode_radix|]. split; [reflexivity|].
    pose proof (Encode_wf bytes) as Hwf. split; [exact Hwf|].
    intros Hin. unfold wf in Hwf.
    apply (proj1 (Forall_forall _ _) Hwf) in Hin.
    revert Hin. vm_compute. intuition discriminate.
Qed.

(** C4: for [l] bytes (of each input element the low eight bits count)
    [Encode] returns a code of ceil(8 l / 5) digits: the digits of the
    consecutive five-bit groups of the bit sequence, most significant bit
    first, the last group filled up with zero bits below its own.  The empty
    sequence gives the empty code. *)
Theorem Encode_bit_groups :
  forall bytes : list Z,
    Encode bytes = inr {| str_ := encode_spec bytes |}
    /\ Z.of_nat (length (encode_spec bytes))
       = ceil_div (8 * Z.of_nat (length bytes)) 5
    /\ Encode [] = inr {| str_ := [] |}.
Proof.
  intros bytes. rewrite encode_spec_values. split; [apply Encode_radix|].
  split; [|reflexivity].
  rewrite length_map, encoded_values_length. unfold encoded_length.
  rewrite Z2Nat.id; [reflexivity|].
  unfold ceil_div.
  destruct (Z.eqb_spec ((8 * Z.of_nat (length bytes)) mod 5) 0); divmod.
Qed.

(** C1, as the code has it: decoding the code of a byte sequence [b] writes
    [b], followed by one zero byte unless the length of [b] is a multiple of
    five; that is [DecodedSize] of the code's size bytes, while five times
    the size fits an [int]. *)
Theorem Decode_Encode_padded :
  forall b : list Z,
    Forall is_byte b ->
    exists code,
      Encode b = inr code
      /\ Decode code
         = b ++ (if Z.of_nat (length b) mod 5 =? 0 then [] else [0])
      /\ (5 * Size code <= INT_MAX ->
          Z.of_nat (length (Decode code)) = DecodedSize (Size code)).
Proof.
  intros b Hb. exists {| str_ := map Digit (encoded_values b) |}.
  split; [apply Encode_radix|]. split.
  - rewrite Decode_Encode, padding_bytes, map_low8_bytes by assumption.
    now destruct (Z.of_nat (length b) mod 5 =? 0).
  - intros Hfit. rewrite Decode_length. symmetry.
    apply DecodedSize_in_range; [unfold Size; lia|assumption].
Qed.

Lemma Decode_Encode_padded_witness :
  Forall is_byte [248; 62]
  /\ exists code,
      Encode [248; 62] = inr code
      /\ Decode code
         = [248; 62] ++ (if Z.of_nat (length [248; 62]) mod 5 =? 0 then [] else [0])
      /\ (5 * Size code <= INT_MAX ->
          Z.of_nat (length (Decode code)) = DecodedSize (Size code)).
Proof.
  assert (H : Forall is_byte [248; 62])
    by (repeat constructor; unfold is_byte; lia).
  split; [exact H|]. exact (Decode_Encode_padded [248; 62] H).
Defined.

(** C1 as stated fails on one byte: the code of [248] is "Z0", its decoded
    size is 2, and [Decode] writes [248] and a zero byte. *)
Lemma Decode_Encode_not_exact :
  exists code,
    Encode [248] = inr code
    /\ Str code = str "Z0"
    /\ DecodedSize (Size code) = 2
    /\ Decode code = [248; 0]
    /\ Decode code <> [248].
Proof.
  exists {| str_ := str "Z0" |}. repeat split. discriminate.
Qed.

(** Within the range of [int], [DecodedSize d] is ceil(5 d / 8): for every
    digit count whose fivefold fits an [int] (so 0 gives 0, 9 gives 6 and 79
    gives 50).  [Decode] writes ceil(5 n / 8) bytes for a code of any size
    [n], which is [DecodedSize n] in that range. *)
Theorem DecodedSize_formula :
  (forall d, 0 <= d -> 5 * d <= INT_MAX -> DecodedSize d = ceil_div (d * 5) 8)
  /\ DecodedSize 0 = 0 /\ DecodedSize 9 = 6 /\ DecodedSize 79 = 50
  /\ (forall code, Z.of_nat (length (Decode code)) = ceil_div (5 * Size code) 8)
  /\ (forall code, 5 * Size code <= INT_MAX ->
      Z.of_nat (length (Decode code)) = DecodedSize (Size code)).
Proof.
  split; [|repeat split].
  - intros d Hd Hfit. rewrite Z.mul_comm. now apply DecodedSize_in_range.
  - apply Decode_length.
  - intros code Hfit. rewrite Decode_length. symmetry.
    apply DecodedSize_in_range; [unfold Size; lia|assumption].
Qed.

Lemma DecodedSize_formula_witness :
  DecodedSize 17 = ceil_div (17 * 5) 8
  /\ Z.of_nat (length (Decode {| str_ := str "Z0Z" |}))
     = DecodedSize (Size {| str_ := str "Z0Z" |}).
Proof.
  split.
  - apply (proj1 DecodedSize_formula 17); [lia|unfold INT_MAX; lia].
  - apply (proj2 (proj2 (proj2 (proj2 (proj2 DecodedSize_formula))))).
    unfold INT_MAX. cbn. lia.
Defined.

(** C5: [DecodedSize d] is meant to be ceil(5 d / 8) for every digit count,
    and the number of bytes [Decode] writes.  The code computes it in [int]:
    the digit count 2^32 is converted to the [int] 0 and [DecodedSize]
    returns 0, where the formula gives 2684354560; and from 429496730
    digits on the product by five no longer fits an [int]. *)
Lemma DecodedSize_wraps :
  DecodedSize 4294967296 = 0
  /\ ceil_div (4294967296 * 5) 8 = 2684354560
  /\ DecodedSize 4294967296 <> ceil_div (4294967296 * 5) 8
  /\ INT_MAX < 429496730 * 5
  /\ DecodedSize 429496730 <> ceil_div (429496730 * 5) 8.
Proof. repeat split; discriminate. Qed.

(** C3, as the code has it: when [Decode] has read all digits, the bits not
    yet written number [5 * size mod 8], between 0 and 7.  When there are
    some, [Decode] writes one more byte: those bits, then zero bits below
    them.  That happens exactly when the digits do not fill a whole number
    of bytes. *)
Theorem Decode_final_byte :
  forall (c : Base32Code) (tmp shift : Z) (out : list Z),
    Decode_loop c = (tmp, shift, out) ->
    shift = (5 * Size c) mod 8
    /\ (shift = 0 -> Decode c = out)
    /\ (0 < shift ->
        1 <= shift <= 7
        /\ Decode c = out ++ [(tmp mod 2 ^ shift) * 2 ^ (8 - shift)])
    /\ (length (Decode c) = S (length out) <-> (5 * Size c) mod 8 <> 0).
Proof.
  intros c tmp shift out Hloop.
  destruct (Decode_loop_inv (str_ c)) as (m & sh & Hst & Hm & Hsh).
  fold (Decode_loop c) in Hst. rewrite Hloop in Hst.
  injection Hst as Htmp -> Hout.
  assert (Hmod : sh = (5 * Size c) mod 8) by (unfold Size; divmod).
  assert (Hlast : 0 < sh ->
                  to_uint8 (to_uint16 (Z.shiftl tmp (CharBits - sh)))
                  = (tmp mod 2 ^ sh) * 2 ^ (8 - sh)).
  { intros Hpos. unfold CharBits, CHAR_BIT.
    rewrite to_uint8_mod, to_uint16_mod, Z.shiftl_mul_pow2 by lia.
    assert (Ht : 0 <= tmp) by (subst tmp; apply Z.mod_pos_bound; lia).
    assert (Hc : sh = 1 \/ sh = 2 \/ sh = 3 \/ sh = 4 \/ sh = 5
                 \/ sh = 6 \/ sh = 7) by lia.
    destruct Hc as [->|[->|[->|[->|[->|[->| ->]]]]]]; cbn; divmod. }
  unfold Decode. rewrite Hloop.
  split; [exact Hmod|]. split; [|split].
  - intros ->. reflexivity.
  - intros Hpos. split; [lia|].
    destruct (Z.ltb_spec 0 sh); [|lia]. now rewrite Hlast.
  - rewrite <- Hmod. destruct (Z.ltb_spec 0 sh).
    + rewrite length_app. cbn [length]. split; lia.
    + split; lia.
Qed.

Lemma Decode_final_byte_witness :
  Decode_loop {| str_ := str "Z0Z" |} = (31775, 7, [248])
  /\ 7 = (5 * Size {| str_ := str "Z0Z" |}) mod 8
  /\ Decode {| str_ := str "Z0Z" |}
     = [248] ++ [(31775 mod 2 ^ 7) * 2 ^ (8 - 7)].
Proof.
  assert (H : Decode_loop {| str_ := str "Z0Z" |} = (31775, 7, [248]))
    by reflexivity.
  split; [exact H|].
  destruct (Decode_final_byte _ _ _ _ H) as (Hs & _ & Hl & _).
  split; [exact Hs|]. apply Hl. lia.
Defined.

(** C3 as stated fails on a code of one digit: five bits remain, not one to
    four; they are written as the high bits of the only byte. *)
Lemma Decode_five_bits_left :
  make (str "Z") = inr {| str_ := str "Z" |}
  /\ Decode_loop {| str_ := str "Z" |} = (31, 5, [])
  /\ ~ 1 <= 5 <= 4
  /\ Decode {| str_ := str "Z" |} = [248].
Proof. repeat split. lia. Qed.

(** For a code [c] of [n] digits, [Encode] of what [Decode] writes is [c]
    followed by [k] digits ['0'], where [k] is
    ceil(8 ceil(5 n / 8) / 5) - n, that is ceil(8 DecodedSize(n) / 5) - n
    while five times [n] fits an [int]; and [k] is zero exactly when
    [5 n mod 8] is zero. *)
Theorem Encode_Decode_padded :
  forall c : Base32Code,
    wf c ->
    exists k : nat,
      Encode (Decode c) = inr {| str_ := Str c ++ repeat "0"%char k |}
      /\ Z.of_nat k = ceil_div (ceil_div (5 * Size c) 8 * 8) 5 - Size c
      /\ (5 * Size c <= INT_MAX ->
          Z.of_nat k = ceil_div (DecodedSize (Size c) * 8) 5 - Size c)
      /\ (k = 0%nat <-> (5 * Size c) mod 8 = 0).
Proof.
  intros c Hwf.
  exists (encoded_length (decoded_length (length (str_ c))) - length (str_ c))%nat.
  destruct (padding_digits (length (str_ c))) as [Hk Hzero].
  split; [now apply Encode_Decode|]. split; [exact Hk|]. split; [|exact Hzero].
  intros Hfit.
  rewrite DecodedSize_in_range by (try assumption; unfold Size; lia).
  exact Hk.
Qed.

Lemma Encode_Decode_padded_witness :
  wf {| str_ := str "Z0Z" |}
  /\ exists k : nat,
      Encode (Decode {| str_ := str "Z0Z" |})
      = inr {| str_ := str "Z0Z" ++ repeat "0"%char k |}
      /\ k = 1%nat.
Proof.
  assert (H : wf {| str_ := str "Z0Z" |})
    by (repeat (apply Forall_cons; [in_list|]); apply Forall_nil).
  split; [exact H|].
  destruct (Encode_Decode_padded _ H) as (k & He & Hk & _).
  exists k. split; [exact He|].
  apply Nat2Z.inj. rewrite Hk. reflexivity.
Defined.

(** A code of 2^32 digits ['0'], whatever stands for the number 2^32. *)
Lemma padding_count_at_2_32 (N : nat) :
  Z.of_nat N = 4294967296 ->
  let c := {| str_ := repeat "0"%char N |} in
  wf c
  /\ Size c = 4294967296
  /\ Encode (Decode c) = inr c
  /\ ceil_div (DecodedSize (Size c) * 8) 5 - Size c = -4294967296.
Proof.
  intros HN c.
  assert (Hwf : wf c).
  { unfold wf, c. cbn [str_]. apply Forall_forall. intros x Hx.
    apply repeat_spec in Hx. subst x. in_list. }
  assert (Hsize : Size c = 4294967296).
  { unfold Size, c. cbn [str_]. now rewrite repeat_length. }
  split; [exact Hwf|]. split; [exact Hsize|]. split.
  - rewrite (Encode_Decode c Hwf).
    destruct (padding_digits (length (str_ c))) as [_ Hzero].
    fold (Size c) in Hzero. rewrite Hsize in Hzero.
    rewrite (proj2 Hzero eq_refl). cbn [repeat]. rewrite app_nil_r.
    reflexivity.
  - rewrite Hsize. reflexivity.
Qed.

(** C2: [Encode] of what [Decode] writes is the code followed by
    ceil(8 DecodedSize(n) / 5) - n digits ['0'].  Beyond the range of [int]
    the code misses it: for the code of 2^32 digits ['0'], [Encode] of what
    [Decode] writes is the code itself, no digit appended, while the count
    computed from [DecodedSize] is -2^32. *)
Lemma padding_count_wraps :
  let c := {| str_ := repeat "0"%char (Z.to_nat 4294967296) |} in
  wf c
  /\ Size c = 4294967296
  /\ Encode (Decode c) = inr c
  /\ ceil_div (DecodedSize (Size c) * 8) 5 - Size c = -4294967296.
Proof.
  exact (padding_count_at_2_32 (Z.to_nat 4294967296)
           (Z2Nat.id 4294967296 ltac:(discriminate))).
Qed.

(** * Further properties of the code *)

(** ** The rest of the class *)

Module Base32Ops.
Import Machine Base32.

(** [std::string::operator==]. *)
Fixpoint string_eq (s t : std_string) : bool :=
  match s, t with
  | [], [] => true
  | a :: s', b :: t' => Ascii.eqb a b && string_eq s' t'
  | _, _ => false
  end.

(** [operator==(const Base32Code& x, const Base32Code& y)]:
    [x.str_ == y.str_]. *)
Definition operator_eq (x y : Base32Code) : bool :=
  string_eq (str_ x) (str_ y).

Lemma string_eq_spec s t : string_eq s t = true <-> s = t.
Proof.
  revert t. induction s as [|a s IH]; intros [|b t]; cbn;
    try (split; [discriminate|discriminate]); [tauto|].
  rewrite andb_true_iff, Ascii.eqb_eq, IH.
  split; [intros [-> ->]; reflexivity|intros H; injection H; auto].
Qed.

End Base32Ops.

Import Base32Ops.

(** *** Characters and values *)

(** [Value] on every character: the [assert] of the source holds, the result
    is [-1] or a value from 0 to 31, it is [-1] exactly on the invalid
    characters, and an alias has the value of its canonical form. *)
Theorem Value_on_every_char :
  forall c : ascii,
    Value_assertion c = true
    /\ -1 <= Value c <= 31
    /\ (Value c = InvalidValue <-> IsValid c = false)
    /\ Value (Canonical c) = Value c.
Proof.
  intros c. split; [apply Value_assertion_holds|].
  split; [|split].
  - each_char c; vm_compute; split; discriminate.
  - each_char c; vm_compute; split; intros H;
      first [reflexivity|discriminate H].
  - unfold Value. now rewrite Canonical_idempotent.
Qed.

(** [Digit] undoes [Value]: the digit of a character's value is its
    canonical form, for the invalid characters too ([Digit(-1)] is the
    sentinel); so two characters have the same value exactly when they have
    the same canonical form. *)
Theorem Digit_of_Value :
  forall a b : ascii,
    Digit (Value a) = Canonical a
    /\ (Value a = Value b <-> Canonical a = Canonical b).
Proof.
  assert (H : forall c, Digit (Value c) = Canonical c)
    by (intros c; each_char c; reflexivity).
  intros a b. split; [apply H|]. split; intros E.
  - now rewrite <- (H a), <- (H b), E.
  - unfold Value. now rewrite E.
Qed.

(** *** Validity, construction and comparison *)

Lemma Canonical_in_Digits c :
  Canonical c <> InvalidDigit -> In (Canonical c) Digits.
Proof.
  each_char c; intros H; first [in_list|exfalso; apply H; reflexivity].
Qed.

Lemma make_inr_inv s code :
  make s = inr code ->
  code = {| str_ := map Canonical s |}
  /\ forall c, In c s -> Canonical c <> InvalidDigit.
Proof.
  unfold make. intros H.
  destruct (invalid_or_valid s) as [Hbad|Hgood].
  - rewrite (canonicalize_invalid s Hbad) in H. discriminate H.
  - rewrite (canonicalize_valid s Hgood) in H.
    injection H as <-. split; [reflexivity|exact Hgood].
Qed.

(** [IsValid] on a string tells whether the constructor accepts it: it is
    true exactly when the constructor returns a code, false exactly when it
    throws, and true on the empty string. *)
Theorem IsValid_string_constructs :
  forall s : std_string,
    (IsValid_string s = true <-> exists code, make s = inr code)
    /\ (IsValid_string s = false
        <-> make s = inl (invalid_argument "Invalid Base32 digit"))
    /\ IsValid_string [] = true.
Proof.
  intros s.
  assert (Hall : IsValid_string s = true
                 <-> forall c, In c s -> Canonical c <> InvalidDigit).
  { unfold IsValid_string. rewrite forallb_forall.
    split; intros H c Hc; apply IsValid_iff; auto. }
  split; [|split; [|reflexivity]].
  - rewrite Hall. split.
    + intros H. unfold make. rewrite (canonicalize_valid s H). eauto.
    + intros [code H]. apply (make_inr_inv s code H).
  - split.
    + intros H. unfold make.
      destruct (invalid_or_valid s) as [Hbad|Hgood].
      * now rewrite (canonicalize_invalid s Hbad).
      * pose proof (proj2 Hall Hgood). congruence.
    + intros H. apply not_true_is_false. intros E.
      unfold make in H.
      rewrite (canonicalize_valid s (proj1 Hall E)) in H. discriminate H.
Qed.

(** What the constructor returns keeps the class invariant: it has as many
    digits as the string has characters, each a member of [Digits]; and
    the constructor, given the string of a code it returned, returns that
    code again. *)
Theorem constructor_invariant :
  forall (s : std_string) (code : Base32Code),
    make s = inr code ->
    wf code
    /\ Size code = Z.of_nat (length s)
    /\ IsValid_string (Str code) = true
    /\ make (Str code) = inr code.
Proof.
  intros s code H. apply make_inr_inv in H as [-> Hgood].
  assert (Hfix : forall c, In c (map Canonical s) ->
                           Canonical c <> InvalidDigit).
  { intros c Hc. apply in_map_iff in Hc as (a & <- & Ha).
    rewrite Canonical_idempotent. now apply Hgood. }
  split; [|split; [|split]].
  - unfold wf. cbn [str_]. apply Forall_forall. intros c Hc.
    apply in_map_iff in Hc as (a & <- & Ha).
    apply Canonical_in_Digits. now apply Hgood.
  - unfold Size. cbn [str_]. now rewrite length_map.
  - unfold Str, IsValid_string. cbn [str_]. apply forallb_forall.
    intros c Hc. apply IsValid_iff. now apply Hfix.
  - unfold Str, make. cbn [str_]. rewrite (canonicalize_valid _ Hfix).
    rewrite map_map. do 2 f_equal. apply map_ext. apply Canonical_idempotent.
Qed.

Lemma constructor_invariant_witness :
  make (str "o1Lz") = inr {| str_ := str "011Z" |}
  /\ wf {| str_ := str "011Z" |}
  /\ make (str "011Z") = inr {| str_ := str "011Z" |}.
Proof.
  assert (H : make (str "o1Lz") = inr {| str_ := str "011Z" |})
    by reflexivity.
  destruct (constructor_invariant _ _ H) as (Hwf & _ & _ & Hagain).
  split; [exact H|]. split; [exact Hwf|exact Hagain].
Defined.

(** Two codes compare equal exactly when the strings they were constructed
    from have the same canonical forms, character by character: case and
    the aliases of zero and one make no difference, anything else does. *)
Theorem operator_eq_canonical :
  forall (s t : std_string) (x y : Base32Code),
    make s = inr x -> make t = inr y ->
    (operator_eq x y = true <-> map Canonical s = map Canonical t)
    /\ (operator_eq x y = true <-> x = y).
Proof.
  intros s t x y Hx Hy.
  apply make_inr_inv in Hx as [-> _]. apply make_inr_inv in Hy as [-> _].
  unfold operator_eq. cbn [str_]. rewrite string_eq_spec.
  split; [reflexivity|]. split; [now intros ->|intros H; now injection H].
Qed.

Lemma operator_eq_canonical_witness :
  make (str "o1Lz") = inr {| str_ := str "011Z" |}
  /\ make (str "0iIZ") = inr {| str_ := str "011Z" |}
  /\ operator_eq {| str_ := str "011Z" |} {| str_ := str "011Z" |} = true.
Proof.
  assert (Hx : make (str "o1Lz") = inr {| str_ := str "011Z" |})
    by reflexivity.
  assert (Hy : make (str "0iIZ") = inr {| str_ := str "011Z" |})
    by reflexivity.
  split; [exact Hx|]. split; [exact Hy|].
  apply (proj1 (operator_eq_canonical _ _ _ _ Hx Hy)). reflexivity.
Defined.

(** *** Encode and Decode as functions *)

Lemma encoded_length_inj l1 l2 :
  encoded_length l1 = encoded_length l2 -> l1 = l2.
Proof.
  intros E. pose proof (encoded_length_spec l1) as H1.
  pose proof (encoded_length_spec l2) as H2. cbv zeta in *.
  rewrite E in H1. lia.
Qed.

Lemma map_land_ff bytes : map (Z.land 0x00ff) bytes = map low8 bytes.
Proof. apply map_ext. intros x. apply land_ff. Qed.

(** [Encode] reads the low eight bits of every element and nothing else,
    and loses nothing of them: two sequences have the same code exactly
    when they have the same length and agree on those bits. *)
Theorem Encode_low_bits_injective :
  forall b1 b2 : list Z,
    Encode b1 = Encode b2
    <-> map (Z.land 0x00ff) b1 = map (Z.land 0x00ff) b2.
Proof.
  intros b1 b2. rewrite !map_land_ff, !Encode_radix. split.
  - intros H. injection H as H.
    assert (Hl : length b1 = length b2).
    { apply encoded_length_inj.
      rewrite <- !encoded_values_length, <- !(length_map Digit).
      now rewrite H. }
    pose proof (Decode_Encode b1) as D1. pose proof (Decode_Encode b2) as D2.
    rewrite H, D2, Hl in D1. now apply app_inv_tail in D1.
  - intros H. unfold encoded_values, bytes_value. rewrite H.
    now rewrite <- (length_map low8 b1), H, length_map.
Qed.

(** The bytes [Decode] writes are bytes, for every code. *)
Lemma Decode_is_bytes c : Forall is_byte (Decode c).
Proof.
  rewrite Decode_radix. unfold decoded_values.
  exact (digits_be_in_base 256 ltac:(lia) _ _).
Qed.

(** [Decode] loses no digit: two codes of the same size that decode to the
    same bytes are the same code. *)
Theorem Decode_injective_same_size :
  forall c1 c2 : Base32Code,
    wf c1 -> wf c2 -> Size c1 = Size c2 -> Decode c1 = Decode c2 -> c1 = c2.
Proof.
  intros [s1] [s2] H1 H2 Hs Hd.
  pose proof (Encode_Decode _ H1) as E1. pose proof (Encode_Decode _ H2) as E2.
  rewrite Hd, E2 in E1. injection E1 as E1. cbn [str_] in *.
  unfold Size in Hs. cbn [str_] in Hs. apply Nat2Z.inj in Hs.
  rewrite Hs in E1. now apply app_inv_tail in E1 as ->.
Qed.

Lemma Decode_injective_same_size_witness :
  wf {| str_ := str "Z0Z" |}
  /\ wf {| str_ := map Canonical (str "zoz") |}
  /\ {| str_ := str "Z0Z" |} = {| str_ := map Canonical (str "zoz") |}.
Proof.
  assert (H1 : wf {| str_ := str "Z0Z" |})
    by (repeat (apply Forall_cons; [in_list|]); apply Forall_nil).
  assert (H2 : wf {| str_ := map Canonical (str "zoz") |})
    by (repeat (apply Forall_cons; [in_list|]); apply Forall_nil).
  split; [exact H1|]. split; [exact H2|].
  exact (Decode_injective_same_size _ _ H1 H2 eq_refl eq_refl).
Defined.

(** Across sizes [Decode] does not tell a code from the code with one more
    digit ['0'], when that digit still falls within the last byte: that is
    when one to three bits were left over. *)
Theorem Decode_trailing_zero :
  forall c : Base32Code,
    1 <= (5 * Size c) mod 8 <= 3 ->
    Decode {| str_ := str_ c ++ ["0"%char] |} = Decode c.
Proof.
  intros [s] Hr. unfold Size in Hr. cbn [str_] in *.
  rewrite !Decode_radix. cbn [str_]. unfold decoded_values.
  rewrite length_app. cbn [length].
  set (n := length s) in *.
  pose proof (decoded_length_spec n) as HM. cbv zeta in HM.
  assert (HM' : decoded_length (n + 1) = decoded_length n).
  { unfold decoded_length, ceil_div. f_equal.
    rewrite Nat2Z.inj_add. change (Z.of_nat 1) with 1.
    destruct (Z.eqb_spec ((5 * (Z.of_nat n + 1)) mod 8) 0);
      destruct (Z.eqb_spec ((5 * Z.of_nat n) mod 8) 0); divmod. }
  rewrite HM'. f_equal.
  rewrite digits_value_snoc. change (digit_bits "0") with 0.
  rewrite Z.add_0_r, Nat2Z.inj_add. change (Z.of_nat 1) with 1.
  set (M := Z.of_nat (decoded_length n)) in *.
  assert (He : 0 <= 8 * M - 5 * (Z.of_nat n + 1)).
  { unfold M, decoded_length, ceil_div in *.
    destruct (Z.eqb_spec ((5 * Z.of_nat n) mod 8) 0);
      rewrite Z2Nat.id in * by divmod; divmod. }
  replace (8 * M - 5 * Z.of_nat n)
    with (5 + (8 * M - 5 * (Z.of_nat n + 1))) by lia.
  rewrite Z.pow_add_r by lia. change (2 ^ 5) with 32. lia.
Qed.

Lemma Decode_trailing_zero_witness :
  1 <= (5 * Size {| str_ := str "Z0" |}) mod 8 <= 3
  /\ Decode {| str_ := str "Z0" ++ ["0"%char] |}
     = Decode {| str_ := str "Z0" |}.
Proof.
  assert (H : 1 <= (5 * Size {| str_ := str "Z0" |}) mod 8 <= 3)
    by (vm_compute; split; discriminate).
  split; [exact H|]. exact (Decode_trailing_zero _ H).
Defined.

(** *** Encoding and decoding in blocks *)

(** The digits of a number split where its notation does. *)
Lemma digits_be_app B k1 k2 a w :
  1 < B -> 0 <= w < B ^ Z.of_nat k2 ->
  digits_be B (k1 + k2) (a * B ^ Z.of_nat k2 + w)
  = digits_be B k1 a ++ digits_be B k2 w.
Proof.
  intros HB. revert w. induction k2 as [|k IH]; intros w Hw.
  - cbn in Hw. replace w with 0 by lia.
    rewrite Nat.add_0_r, app_nil_r. cbn [Z.of_nat]. f_equal. lia.
  - rewrite Nat2Z.inj_succ, Z.pow_succ_r in * by lia.
    rewrite Nat.add_succ_r. cbn [digits_be].
    replace (a * (B * B ^ Z.of_nat k) + w)
      with (w + (a * B ^ Z.of_nat k) * B) by lia.
    rewrite Z.div_add, Z.mod_add by lia.
    rewrite (Z.add_comm (w / B)), IH, app_assoc; [reflexivity|].
    split; [apply Z.div_pos; lia|apply Z.div_lt_upper_bound; lia].
Qed.

Lemma encoded_values_app b1 b2 :
  Z.of_nat (length b1) mod 5 = 0 ->
  encoded_values (b1 ++ b2) = encoded_values b1 ++ encoded_values b2.
Proof.
  intros Hblock. unfold encoded_values. rewrite length_app.
  set (l1 := length b1) in *. set (l2 := length b2).
  pose proof (encoded_length_spec l1) as H1.
  pose proof (encoded_length_spec l2) as H2.
  pose proof (encoded_length_spec (l1 + l2)) as H12.
  cbv zeta in H1, H2, H12. rewrite Nat2Z.inj_add in H12.
  set (K1 := encoded_length l1) in *. set (K2 := encoded_length l2) in *.
  assert (HK1 : 5 * Z.of_nat K1 = 8 * Z.of_nat l1) by divmod.
  assert (HK : encoded_length (l1 + l2) = (K1 + K2)%nat) by lia.
  rewrite HK, !Nat2Z.inj_add.
  replace (5 * Z.of_nat K1 - 8 * Z.of_nat l1) with 0 by lia.
  replace (5 * (Z.of_nat K1 + Z.of_nat K2) - 8 * (Z.of_nat l1 + Z.of_nat l2))
    with (5 * Z.of_nat K2 - 8 * Z.of_nat l2) by lia.
  set (p := 5 * Z.of_nat K2 - 8 * Z.of_nat l2).
  rewrite Z.pow_0_r, Z.mul_1_r.
  unfold bytes_value. rewrite map_app, value_be_app, length_map. fold l2.
  fold (bytes_value b1). fold (bytes_value b2).
  pose proof (bytes_value_bound b2) as HV2. fold l2 in HV2.
  assert (Hpow : 256 ^ Z.of_nat l2 * 2 ^ p = 32 ^ Z.of_nat K2).
  { change 256 with (2 ^ 8). change 32 with (2 ^ 5).
    rewrite <- !Z.pow_mul_r, <- Z.pow_add_r by lia. f_equal. lia. }
  replace ((bytes_value b1 * 256 ^ Z.of_nat l2 + bytes_value b2) * 2 ^ p)
    with (bytes_value b1 * 32 ^ Z.of_nat K2 + bytes_value b2 * 2 ^ p)
    by (rewrite <- Hpow; ring).
  apply digits_be_app; [lia|].
  rewrite <- Hpow. change 256 with (2 ^ 8).
  rewrite <- Z.pow_mul_r, <- Z.pow_add_r by lia.
  apply scaled_bound; lia.
Qed.

Lemma decoded_values_app s1 s2 :
  Z.of_nat (length s1) mod 8 = 0 ->
  decoded_values (s1 ++ s2) = decoded_values s1 ++ decoded_values s2.
Proof.
  intros Hblock. unfold decoded_values. rewrite length_app.
  set (n1 := length s1) in *. set (n2 := length s2).
  pose proof (decoded_length_spec n1) as H1.
  pose proof (decoded_length_spec n2) as H2.
  pose proof (decoded_length_spec (n1 + n2)) as H12.
  cbv zeta in H1, H2, H12. rewrite Nat2Z.inj_add in H12.
  set (M1 := decoded_length n1) in *. set (M2 := decoded_length n2) in *.
  assert (HM1 : 8 * Z.of_nat M1 = 5 * Z.of_nat n1) by divmod.
  assert (HM : decoded_length (n1 + n2) = (M1 + M2)%nat) by lia.
  rewrite HM, !Nat2Z.inj_add.
  replace (8 * Z.of_nat M1 - 5 * Z.of_nat n1) with 0 by lia.
  replace (8 * (Z.of_nat M1 + Z.of_nat M2) - 5 * (Z.of_nat n1 + Z.of_nat n2))
    with (8 * Z.of_nat M2 - 5 * Z.of_nat n2) by lia.
  set (p := 8 * Z.of_nat M2 - 5 * Z.of_nat n2).
  rewrite Z.pow_0_r, Z.mul_1_r.
  unfold digits_value. rewrite map_app, value_be_app, length_map. fold n2.
  fold (digits_value s1). fold (digits_value s2).
  pose proof (digits_value_bound s2) as HU2. fold n2 in HU2.
  assert (Hpow : 32 ^ Z.of_nat n2 * 2 ^ p = 256 ^ Z.of_nat M2).
  { change 256 with (2 ^ 8). change 32 with (2 ^ 5).
    rewrite <- !Z.pow_mul_r, <- Z.pow_add_r by lia. f_equal. lia. }
  replace ((digits_value s1 * 32 ^ Z.of_nat n2 + digits_value s2) * 2 ^ p)
    with (digits_value s1 * 256 ^ Z.of_nat M2 + digits_value s2 * 2 ^ p)
    by (rewrite <- Hpow; ring).
  apply digits_be_app; [lia|].
  rewrite <- Hpow. change 32 with (2 ^ 5).
  rewrite <- Z.pow_mul_r, <- Z.pow_add_r by lia.
  apply scaled_bound; lia.
Qed.

(** After a whole number of five-byte blocks no bit is pending: the code of
    [b1 ++ b2] is the code of [b1] followed by the code of [b2]. *)
Theorem Encode_blocks :
  forall b1 b2 : list Z,
    Z.of_nat (length b1) mod 5 = 0 ->
    exists c1 c2 c,
      Encode b1 = inr c1 /\ Encode b2 = inr c2
      /\ Encode (b1 ++ b2) = inr c
      /\ Str c = Str c1 ++ Str c2.
Proof.
  intros b1 b2 Hblock.
  exists {| str_ := map Digit (encoded_values b1) |},
         {| str_ := map Digit (encoded_values b2) |},
         {| str_ := map Digit (encoded_values (b1 ++ b2)) |}.
  rewrite !Encode_radix. repeat split.
  unfold Str. cbn [str_]. now rewrite encoded_values_app, map_app.
Qed.

Lemma Encode_blocks_witness :
  Z.of_nat (length [1; 2; 3; 4; 5]) mod 5 = 0
  /\ exists c1 c2 c,
      Encode [1; 2; 3; 4; 5] = inr c1 /\ Encode [248] = inr c2
      /\ Encode ([1; 2; 3; 4; 5] ++ [248]) = inr c
      /\ Str c = Str c1 ++ Str c2.
Proof.
  split; [reflexivity|].
  exact (Encode_blocks [1; 2; 3; 4; 5] [248] eq_refl).
Defined.

(** After a whole number of eight-digit blocks no bit is pending: [Decode]
    of the digits [s1 ++ s2] writes what it writes for [s1], then what it
    writes for [s2]. *)
Theorem Decode_blocks :
  forall s1 s2 : std_string,
    Z.of_nat (length s1) mod 8 = 0 ->
    Decode {| str_ := s1 ++ s2 |}
    = Decode {| str_ := s1 |} ++ Decode {| str_ := s2 |}.
Proof.
  intros s1 s2 Hblock. rewrite !Decode_radix. cbn [str_].
  now apply decoded_values_app.
Qed.

Lemma Decode_blocks_witness :
  Z.of_nat (length (str "Z0Z0Z0Z0")) mod 8 = 0
  /\ Decode {| str_ := str "Z0Z0Z0Z0" ++ str "Z0" |}
     = Decode {| str_ := str "Z0Z0Z0Z0" |} ++ Decode {| str_ := str "Z0" |}.
Proof.
  split; [reflexivity|].
  exact (Decode_blocks (str "Z0Z0Z0Z0") (str "Z0") eq_refl).
Defined.

(** *** Decode as the header words it

    "The first digit of the code goes in the highest bits of the first byte
    written": the digits are one bit sequence, five bits each, most
    significant first; the bytes are its consecutive groups of eight, the
    last one filled up with zero bits below its own. *)

Module DecodeSpec.
Import Machine Base32 Radix Bits Repack BitSpec Roundtrip.

(** The five bits of a digit's value, most significant first. *)
Definition bits_of_digit (c : ascii) : list bool :=
  map (Z.testbit (Value c)) [4; 3; 2; 1; 0].

(** The digits as one bit sequence. *)
Definition digit_bit_sequence (s : std_string) : list bool :=
  flat_map bits_of_digit s.

(** Consecutive groups of eight bits; an incomplete last group is filled
    with zero bits after its own. *)
Fixpoint groups8 (bits : list bool) : list (list bool) :=
  match bits with
  | [] => []
  | b1 :: b2 :: b3 :: b4 :: b5 :: b6 :: b7 :: b8 :: rest =>
      [b1; b2; b3; b4; b5; b6; b7; b8] :: groups8 rest
  | tail => [tail ++ repeat false (8 - length tail)]
  end.

(** The bytes of the bit-level description. *)
Definition decode_spec (c : Base32Code) : list Z :=
  map bits_value (groups8 (digit_bit_sequence (str_ c))).

Lemma list_ind8 (P : list bool -> Prop) :
  P [] ->
  (forall a, P [a]) ->
  (forall a b, P [a; b]) ->
  (forall a b c, P [a; b; c]) ->
  (forall a b c d, P [a; b; c; d]) ->
  (forall a b c d e, P [a; b; c; d; e]) ->
  (forall a b c d e f, P [a; b; c; d; e; f]) ->
  (forall a b c d e f g, P [a; b; c; d; e; f; g]) ->
  (forall a b c d e f g h r, P r -> P (a :: b :: c :: d :: e :: f :: g :: h :: r)) ->
  forall l, P l.
Proof.
  intros H0 H1 H2 H3 H4 H5 H6 H7 H8.
  fix IH 1. intros [|a [|b [|c [|d [|e [|f [|g [|h r]]]]]]]];
    [apply H0|apply H1|apply H2|apply H3|apply H4|apply H5|apply H6|apply H7
    |apply H8; apply IH].
Qed.

Lemma ceil_div_8_pad L :
  0 <= L -> 0 <= 8 * ceil_div L 8 - L <= 7.
Proof.
  intros HL. unfold ceil_div. destruct (Z.eqb_spec (L mod 8) 0); divmod.
Qed.

Lemma ceil_div_8_step L :
  0 <= L -> ceil_div (8 + L) 8 = 1 + ceil_div L 8.
Proof.
  intros HL. unfold ceil_div.
  replace ((8 + L) mod 8) with (L mod 8) by divmod.
  replace ((8 + L) / 8) with (1 + L / 8) by divmod. lia.
Qed.

(** The values of the groups are the base-256 digits of the bit sequence,
    scaled to a whole number of groups. *)
Lemma groups8_radix bits :
  let L := Z.of_nat (length bits) in
  let K := Z.to_nat (ceil_div L 8) in
  map bits_value (groups8 bits)
  = digits_be 256 K (bits_value bits * 2 ^ (8 * Z.of_nat K - L)).
Proof.
  induction bits
    as [|a|a b|a b c|a b c d|a b c d e|a b c d e f|a b c d e f g
        |a b c d e f g h r IH] using list_ind8.
  - reflexivity.
  - destruct a; reflexivity.
  - destruct a, b; reflexivity.
  - destruct a, b, c; reflexivity.
  - destruct a, b, c, d; reflexivity.
  - destruct a, b, c, d, e; reflexivity.
  - destruct a, b, c, d, e, f; reflexivity.
  - destruct a, b, c, d, e, f, g; reflexivity.
  - cbv zeta in *.
    change (groups8 (a :: b :: c :: d :: e :: f :: g :: h :: r))
      with ([a; b; c; d; e; f; g; h] :: groups8 r).
    cbn [map]. rewrite IH. clear IH.
    change (a :: b :: c :: d :: e :: f :: g :: h :: r)
      with ([a; b; c; d; e; f; g; h] ++ r).
    rewrite bits_value_app, length_app, Nat2Z.inj_add.
    change (Z.of_nat (length [a; b; c; d; e; f; g; h])) with 8.
    set (Lr := Z.of_nat (length r)).
    assert (HLr : 0 <= Lr) by (unfold Lr; lia).
    rewrite ceil_div_8_step by assumption.
    pose proof (ceil_div_8_pad Lr HLr) as Hpad.
    set (Kr := ceil_div Lr 8) in *.
    rewrite Z2Nat.inj_add, Z2Nat.id by lia.
    change (Z.to_nat 1) with 1%nat. cbn [Nat.add].
    rewrite Nat2Z.inj_succ, Z2Nat.id by lia.
    replace (8 * Z.succ Kr - (8 + Lr)) with (8 * Kr - Lr) by lia.
    pose proof (bits_value_bound [a; b; c; d; e; f; g; h]) as H8.
    change (Z.of_nat (length [a; b; c; d; e; f; g; h])) with 8 in H8.
    change (2 ^ 8) with 256 in H8.
    pose proof (bits_value_bound r) as Hr. fold Lr in Hr.
    set (v8 := bits_value [a; b; c; d; e; f; g; h]) in *.
    set (vr := bits_value r) in *.
    assert (Hpow : 2 ^ Lr * 2 ^ (8 * Kr - Lr) = 256 ^ Z.of_nat (Z.to_nat Kr)).
    { rewrite <- Z.pow_add_r by lia. rewrite Z2Nat.id by lia.
      replace (Lr + (8 * Kr - Lr)) with (8 * Kr) by lia.
      now rewrite Z.pow_mul_r by lia. }
    replace ((v8 * 2 ^ Lr + vr) * 2 ^ (8 * Kr - Lr))
      with (v8 * 256 ^ Z.of_nat (Z.to_nat Kr) + vr * 2 ^ (8 * Kr - Lr))
      by (rewrite <- Hpow; ring).
    symmetry. apply digits_be_cons; [lia|lia|].
    rewrite <- Hpow.
    assert (0 < 2 ^ (8 * Kr - Lr)) by (apply Z.pow_pos_nonneg; lia).
    nia.
Qed.

Lemma bits_of_digit_value c : bits_value (bits_of_digit c) = digit_bits c.
Proof.
  unfold bits_value, bits_of_digit, value_be, digit_bits.
  cbn [map fold_left]. rewrite Mask_land, !Z.testbit_spec' by lia.
  change (2 ^ 0) with 1; change (2 ^ 1) with 2; change (2 ^ 2) with 4;
    change (2 ^ 3) with 8; change (2 ^ 4) with 16.
  divmod.
Qed.

Lemma digit_bit_sequence_length s :
  Z.of_nat (length (digit_bit_sequence s)) = 5 * Z.of_nat (length s).
Proof.
  induction s as [|c s IH]; [reflexivity|].
  cbn [digit_bit_sequence flat_map]. fold (digit_bit_sequence s).
  rewrite length_app. cbn [length bits_of_digit map]. lia.
Qed.

Lemma digit_bit_sequence_value s :
  bits_value (digit_bit_sequence s) = digits_value s.
Proof.
  induction s as [|c s IH]; [reflexivity|].
  cbn [digit_bit_sequence flat_map]. fold (digit_bit_sequence s).
  rewrite bits_value_app, bits_of_digit_value, IH, digit_bit_sequence_length.
  unfold digits_value. cbn [map]. rewrite value_be_cons, length_map.
  rewrite Z.pow_mul_r by lia. reflexivity.
Qed.

Lemma decode_spec_values c : decode_spec c = decoded_values (str_ c).
Proof.
  unfold decode_spec, decoded_values, decoded_length.
  rewrite groups8_radix. cbv zeta.
  now rewrite digit_bit_sequence_length, digit_bit_sequence_value.
Qed.

End DecodeSpec.

Import DecodeSpec.

Lemma Decode_spec_eq c : Decode c = decode_spec c.
Proof. now rewrite decode_spec_values, Decode_radix. Qed.

(** For every code, [Decode] writes the bytes of the bit-level description:
    the five bits of each digit's value in order, cut into groups of eight,
    the last group filled up with zero bits below its own. *)
Theorem Decode_bit_groups :
  forall c : Base32Code, Decode c = decode_spec c.
Proof. intros c. rewrite Decode_radix. symmetry. apply decode_spec_values. Qed.

(** *** Where the first bits go *)

(** "The highest bits of the first byte becomes the first digit of the
    code": the code of a non-empty sequence starts with the digit of the
    five high bits of the first element's low byte. *)
Theorem Encode_first_digit :
  forall (x : Z) (rest : list Z),
    exists tail,
      Encode (x :: rest)
      = inr {| str_ := Digit (Z.land 0x00ff x / 8) :: tail |}.
Proof.
  intros x rest. rewrite Encode_radix, <- encode_spec_values.
  unfold encode_spec.
  cbn [bit_sequence flat_map bits_of_byte map app groups5].
  eexists. do 3 f_equal.
  unfold bits_value, value_be. cbn [map fold_left].
  rewrite land_ff, !Z.testbit_spec' by lia.
  change (2 ^ 3) with 8; change (2 ^ 4) with 16; change (2 ^ 5) with 32;
    change (2 ^ 6) with 64; change (2 ^ 7) with 128.
  f_equal. divmod.
Qed.

Lemma digit_bits_of_digit d : In d Digits -> digit_bits d = Value d.
Proof.
  unfold Digits. cbn [In]. intros H.
  repeat (destruct H as [<-|H]; [reflexivity|]). contradiction.
Qed.

(** "The first digit of the code goes in the highest bits of the first byte
    written": for a code that starts with the digit [d], [Decode] writes at
    least one byte, and the five high bits of the first are the value of
    [d]. *)
Theorem Decode_first_byte :
  forall (d : ascii) (rest : std_string),
    In d Digits ->
    exists b tail,
      Decode {| str_ := d :: rest |} = b :: tail /\ b / 8 = Value d.
Proof.
  intros d rest Hd. rewrite Decode_spec_eq. unfold decode_spec.
  cbn [str_ digit_bit_sequence flat_map]. fold (digit_bit_sequence rest).
  rewrite <- (digit_bits_of_digit d Hd), <- bits_of_digit_value.
  change (bits_of_digit d) with (map (Z.testbit (Value d)) [4; 3; 2; 1; 0]).
  cbn [map app]. set (v := Value d).
  assert (Hhigh : forall e4 e3 e2 : bool,
             bits_value [Z.testbit v 4; Z.testbit v 3; Z.testbit v 2;
                         Z.testbit v 1; Z.testbit v 0; e4; e3; e2] / 8
             = bits_value [Z.testbit v 4; Z.testbit v 3; Z.testbit v 2;
                           Z.testbit v 1; Z.testbit v 0]).
  { intros e4 e3 e2. unfold bits_value, value_be. cbn [map fold_left].
    destruct e4, e3, e2; cbn [Z.b2z]; divmod. }
  destruct rest as [|e rest].
  - cbn [digit_bit_sequence flat_map groups8 app length Nat.sub repeat map].
    eexists _, _. split; [reflexivity|]. apply Hhigh.
  - cbn [digit_bit_sequence flat_map]. fold (digit_bit_sequence rest).
    change (bits_of_digit e) with (map (Z.testbit (Value e)) [4; 3; 2; 1; 0]).
    cbn [map app groups8].
    eexists _, _. split; [reflexivity|]. apply Hhigh.
Qed.

Lemma Decode_first_byte_witness :
  In "Z"%char Digits
  /\ exists b tail,
      Decode {| str_ := "Z"%char :: str "0Z" |} = b :: tail
      /\ b / 8 = Value "Z".
Proof.
  assert (H : In "Z"%char Digits) by in_list.
  split; [exact H|]. exact (Decode_first_byte "Z"%char (str "0Z") H).
Defined.

(** *** What the loops keep *)

(** After any number of bytes, [Encode] has [tmp] within 16 bits and
    [shift] from -5 to 0, and every bit read is either written or pending:
    five bits for each digit written and [shift + 5] pending make eight bits
    for each byte read.  So the next iteration shifts by 3 to 8 bits and
    the last statement by 0 to 4. *)
Theorem Encode_loop_accounting :
  forall (bytes : list Z) (tmp shift : Z) (s : std_string),
    Encode_loop Digit bytes = (tmp, shift, s) ->
    0 <= tmp < 65536
    /\ -5 <= shift <= 0
    /\ (bytes <> [] -> 0 <= abs shift <= 4)
    /\ 5 * Z.of_nat (length s) + (shift + 5) = 8 * Z.of_nat (length bytes).
Proof.
  intros bytes tmp shift s H.
  destruct (Encode_loop_inv Digit bytes) as (k & p & Hst & Hk & Hp & Hne).
  rewrite H in Hst. injection Hst as -> -> ->.
  rewrite length_map, digits_be_length.
  split; [apply Z.mod_pos_bound; lia|]. split; [lia|]. split; [|lia].
  intros Hb. specialize (Hne Hb). unfold abs. lia.
Qed.

Lemma Encode_loop_accounting_witness :
  Encode_loop Digit [248; 62] = (63550, -4, str "Z0Z")
  /\ 5 * Z.of_nat (length (str "Z0Z")) + (-4 + 5)
     = 8 * Z.of_nat (length [248; 62]).
Proof.
  assert (H : Encode_loop Digit [248; 62] = (63550, -4, str "Z0Z"))
    by reflexivity.
  split; [exact H|].
  exact (proj2 (proj2 (proj2 (Encode_loop_accounting _ _ _ _ H)))).
Defined.


